(** * Scale-up recommender of the scaler simulator

    A shallow embedding of package [recommender] (the round loop
    [Recommender.Run], one simulation round [runSimulation], the trial
    goroutine [runSimulationForNodePool], [getEligibleNodePools] and
    [getWinner]) and of the HTTP handler [handleClearVirtualCluster] of
    package [service], followed by the properties established about them. *)

From Stdlib Require Import ZArith List Bool Lia.
From Stdlib Require Import SpecFloat.
From stdpp Require Import base option list strings gmap pretty.

Local Open Scope Z_scope.

(** ** Machine integers *)

Module GoInt.

(** Conversion of an integer to a signed [bits]-bit Go integer
    (two's complement wrap-around). *)
Definition wrap (bits : Z) (z : Z) : Z :=
  (z + 2 ^ (bits - 1)) mod 2 ^ bits - 2 ^ (bits - 1).

Definition int32 (z : Z) : Z := wrap 32 z.
Definition int (z : Z) : Z := wrap 64 z.

(** [len(s)] of a slice, as a Go [int]. *)
Definition len {A} (s : list A) : Z := Z.of_nat (length s).

(** [strconv.Itoa]. *)
Definition Itoa (z : Z) : string := pretty z.

End GoInt.

(** ** [float64] values and their comparison

    A [float64] is an IEEE 754 binary64 datum; Go's [<] on it is the IEEE
    comparison, which [SFltb] computes.  [math.MaxFloat64] is the largest
    finite value, (2^53 - 1) * 2^971. *)

Module Float64.

Definition float64 : Type := spec_float.

Definition MaxFloat64 : float64 := S754_finite false (2 ^ 53 - 1) 971.

(** The zero value of a [float64] variable. *)
Definition zero : float64 := S754_zero false.

Definition ltb (x y : float64) : bool := SFltb x y.
Definition leb (x y : float64) : bool := SFleb x y.

Definition is_nan (x : float64) : bool :=
  match x with S754_nan => true | _ => false end.

(** The values 1.0 and 2.0 in canonical form. *)
Definition one : float64 := S754_finite false (2 ^ 52) (-52).
Definition two : float64 := S754_finite false (2 ^ 52) (-51).

End Float64.

(** ** Errors *)

(** A Go [error] value, identified with the message [err.Error()] gives. *)
Record error : Type := ErrMsg { Error : string }.

Definition newline : string := String (Ascii.ascii_of_nat 10) EmptyString.

(** [errors.Join]: nil values are discarded; the result is nil when every
    argument is nil, and otherwise an error whose message is the messages
    of the others, one per line. *)
Definition errors_Join (errs : list (option error)) : option error :=
  match omap id errs with
  | [] => None
  | e :: es =>
      Some (ErrMsg (fold_left (fun acc x => acc +:+ newline +:+ Error x) es (Error e)))
  end.

(** The pair [(value, error)] a fallible gateway call returns. *)
Inductive Result (A : Type) : Type :=
| Ok (a : A)
| Err (e : error).
Arguments Ok {A} a.
Arguments Err {A} e.

(** ** Data model *)

(** [corev1.Pod]: opaque to the recommender, which only copies pods. *)
Module Pod.
Record t : Type := { Name : string; NodeName : string }.
End Pod.

(** [corev1.Node]: the name and the label map, which is [None] for a nil
    Go map (a node without labels). *)
Module Node.
Record t : Type := { Name : string; Labels : option (gmap string string) }.
End Node.

(** [v1beta1.Worker], one worker pool of the shoot spec. *)
Module Worker.
Record t : Type :=
  { Name : string; Zones : list string; Maximum : Z; MachineType : string }.
End Worker.

(** [v1beta1.Shoot]: its name and [Spec.Provider.Workers]. *)
Module Shoot.
Record t : Type := { Name : string; Workers : list Worker.t }.
End Shoot.

(** [scalesim.NodePool], with the fields [getEligibleNodePools] fills. *)
Module NodePool.
Record t : Type :=
  { Name : string; Zones : list string; Max : Z; Current : Z;
    MachineType : string }.
End NodePool.

(** Modelled from the spec: the struct [scalesim.NodeRunResult] is declared
    outside the files at hand; the code reads its [CumulativeScore], and the
    spec gives a trial result "the trial's pool reference, a cumulative
    score". *)
Module NodeRunResult.
Record t : Type := { NodePoolName : string; CumulativeScore : Float64.float64 }.
(** The zero value of the struct. *)
Definition zero : t := {| NodePoolName := ""; CumulativeScore := Float64.zero |}.
End NodeRunResult.

Record runResult : Type :=
  { result : NodeRunResult.t;
    unscheduledPods : list Pod.t;
    err : option error }.

(** The zero value [runResult{}]. *)
Definition runResult_zero : runResult :=
  {| result := NodeRunResult.zero; unscheduledPods := []; err := None |}.

(** [type Recommendation map[string]int]. *)
Abbreviation Recommendation := (gmap string Z).

(** ** The engine

    [scalesim.Engine] gives access to the virtual cluster and to the shoot.
    [W] is the state of the world behind the gateway; listing calls read it,
    [AddNodes] and [ClearAll] may change it, every call may fail. *)
Class Engine (W : Type) : Type :=
  { ListPods : W -> Result (list Pod.t);
    ListNodes : W -> Result (list Node.t);
    ListNodesInNodePool : W -> string -> Result (list Node.t);
    AddNodes : W -> list Node.t -> W * option error;
    ClearAll : W -> W * option error;
    GetShootObj : W -> string -> Result Shoot.t }.

(** ** Winner selection *)

(** One iteration of the loop of [getWinner] on the pair
    [(winner, minScore)]. *)
Definition getWinner_step (acc : runResult * Float64.float64) (v : runResult)
  : runResult * Float64.float64 :=
  if Float64.ltb (NodeRunResult.CumulativeScore (result v)) (snd acc)
  then (v, NodeRunResult.CumulativeScore (result v))
  else acc.

Definition getWinner (results : list runResult) : runResult :=
  fst (fold_left getWinner_step results (runResult_zero, Float64.MaxFloat64)).

(** ** Log

    [webutil.Log] and [webutil.InternalError] write to the recommender's
    [logWriter]; the model records which message was written, with the
    values formatted into it. *)
Inductive logEntry : Type :=
| LogRunStarted (runNumber : Z)
| LogAllPodsScheduled
| LogSimulationError (shootName : string) (e : error)
| LogNoWinner
| LogWinningScore (runNumber : Z) (winner : NodeRunResult.t)
| LogInternalError (e : error).

(** ** Trial goroutines

    A round starts one goroutine per eligible pool.  Each goroutine makes up
    to three gateway calls; between two calls of one goroutine the others may
    run.  [pc] is the point a goroutine has reached. *)
Inductive pc : Type :=
| AtListNodes
| AtAddNodes (NodeList : list Node.t)
| AtListPods
| Returned.

Record goroutine : Type := { nodePool : NodePool.t; at_pc : pc }.

Definition labelKey : string := "app.kubernetes.io/simulation-run".

(** The body of [for _, node := range nodes]: the deep copy is renamed and
    labelled.  Writing to the label map of a node without labels is a write
    to a nil map, on which Go panics: [None]. *)
Definition labelNodeCopy (labelValue : string) (node : Node.t) : option Node.t :=
  match Node.Labels node with
  | None => None
  | Some labels =>
      Some {| Node.Name := Node.Name node +:+ "SimRun-" +:+ labelValue;
              Node.Labels := Some (<[labelKey := labelValue]> labels) |}
  end.

Section Recommender.

Context {W : Type} {engine : Engine W}.

(** *** [getEligibleNodePools] *)

Definition nodePoolOf (worker : Worker.t) (nodes : list Node.t) : NodePool.t :=
  {| NodePool.Name := Worker.Name worker;
     NodePool.Zones := Worker.Zones worker;
     NodePool.Max := Worker.Maximum worker;
     NodePool.Current := GoInt.int32 (GoInt.len nodes);
     NodePool.MachineType := Worker.MachineType worker |}.

(** The loop over [shoot.Spec.Provider.Workers]; [eligibleNodePools] is
    the slice built so far. *)
Fixpoint eligibleLoop (w : W) (workers : list Worker.t)
    (eligibleNodePools : list NodePool.t) : Result (list NodePool.t) :=
  match workers with
  | [] => Ok eligibleNodePools
  | worker :: workers' =>
      match ListNodesInNodePool w (Worker.Name worker) with
      | Err e => Err e
      | Ok nodes =>
          if GoInt.int32 (GoInt.len nodes) >=? Worker.Maximum worker
          then eligibleLoop w workers' eligibleNodePools
          else eligibleLoop w workers'
                 (eligibleNodePools ++ [nodePoolOf worker nodes])
      end
  end.

Definition getEligibleNodePools (w : W) (shoot : Shoot.t)
  : Result (list NodePool.t) :=
  eligibleLoop w (Shoot.Workers shoot) [].

(** *** [runSimulationForNodePool] *)

(** The result channel: the values sent on it, oldest first.  Its buffer
    has room for one value per trial, so a send never blocks. *)
Definition channel : Type := list runResult.

Definition failed (e : error) : runResult :=
  {| result := NodeRunResult.zero; unscheduledPods := []; err := Some e |}.

(** One gateway call of a trial goroutine together with the local code
    that follows it, up to the next call.  [None] is a panic. *)
Definition stepTrial (runNum : Z) (g : goroutine) (w : W) (resultCh : channel)
  : option (goroutine * W * channel) :=
  let nodePool := nodePool g in
  let labelValue := NodePool.Name nodePool +:+ "-" +:+ GoInt.Itoa runNum in
  match at_pc g with
  | AtListNodes =>
      match ListNodes w with
      | Err e =>
          Some ({| nodePool := nodePool; at_pc := Returned |}, w,
                resultCh ++ [failed e])
      | Ok nodes =>
          match mapM (labelNodeCopy labelValue) nodes with
          | None => None
          | Some NodeList =>
              Some ({| nodePool := nodePool; at_pc := AtAddNodes NodeList |},
                    w, resultCh)
          end
      end
  | AtAddNodes NodeList =>
      let '(w', _) := AddNodes w NodeList in
      Some ({| nodePool := nodePool; at_pc := AtListPods |}, w', resultCh)
  | AtListPods =>
      match ListPods w with
      | Err e =>
          Some ({| nodePool := nodePool; at_pc := Returned |}, w,
                resultCh ++ [failed e])
      | Ok pods =>
          Some ({| nodePool := nodePool; at_pc := Returned |}, w, resultCh)
      end
  | Returned => Some (g, w, resultCh)
  end.

(** *** [triggerNodePoolSimulations] *)

(** The goroutines advance in the order a schedule gives: its entries are
    indices into the slice of goroutines (an index out of range advances
    nobody). *)
Fixpoint runSchedule (runNum : Z) (schedule : list nat)
    (gs : list goroutine) (w : W) (resultCh : channel)
  : option (list goroutine * W * channel) :=
  match schedule with
  | [] => Some (gs, w, resultCh)
  | i :: schedule' =>
      match gs !! i with
      | None => runSchedule runNum schedule' gs w resultCh
      | Some g =>
          match stepTrial runNum g w resultCh with
          | None => None
          | Some (g', w', resultCh') =>
              runSchedule runNum schedule' (<[i := g']> gs) w' resultCh'
          end
      end
  end.

(** [wg.Wait()] returns once every goroutine has returned: whatever the
    schedule left undone is run to the end, three steps being enough for a
    goroutine.  A step of a goroutine that has returned does nothing, so a
    schedule that already runs every goroutine to its end is not changed by
    this, and every interleaving of the gateway calls is the run of some
    schedule. *)
Definition drainSchedule (n : nat) : list nat :=
  flat_map (fun i => [i; i; i]) (seq 0 n).

(** The values on the channel when it is closed, and the world then. *)
Definition triggerNodePoolSimulations (schedule : list nat) (w : W)
    (nodePools : list NodePool.t) (runNum : Z) : option (W * channel) :=
  let gs := map (fun nodePool => {| nodePool := nodePool; at_pc := AtListNodes |})
                nodePools in
  match runSchedule runNum (schedule ++ drainSchedule (length nodePools)) gs w [] with
  | None => None
  | Some (_, w', resultCh) => Some (w', resultCh)
  end.

(** *** [runSimulation] *)

(** What a round hands back: a pointer to the winning trial's
    [NodeRunResult] ([None] for nil), the pods, and the error. *)
Definition roundResult : Type :=
  (option NodeRunResult.t * list Pod.t * option error)%type.

(** The body of [for result := range resultCh] on [(results, errs)];
    [err0] is the variable [err] of [runSimulation], which still holds what
    [getEligibleNodePools] returned.  The value of [errors.Join] is
    assigned to the blank identifier. *)
Definition collectStep (err0 : option error)
    (acc : list runResult * option error) (result : runResult)
  : list runResult * option error :=
  let '(results, errs) := acc in
  match err result with
  | Some _ => let _ := errors_Join [errs; err0] in (results, errs)
  | None => (results ++ [result], errs)
  end.

(** The receiving loop and what follows it, for the values [resultCh]
    carried until it was closed. *)
Definition collectResults (err0 : option error) (resultCh : channel)
  : roundResult :=
  let '(results, errs) := fold_left (collectStep err0) resultCh ([], None) in
  match errs with
  | Some _ => (None, [], err0)
  | None =>
      let winningResult := getWinner results in
      (Some (result winningResult), unscheduledPods winningResult, None)
  end.

(** The capacity [resultCh] is made with. *)
Definition resultChCap (eligibleNodePools : list NodePool.t) : Z :=
  GoInt.len eligibleNodePools.

(** One round; [None] when a trial goroutine panics.  The argument [pods]
    is not used by the round. *)
Definition runSimulation (schedule : list nat) (w : W) (shoot : Shoot.t)
    (pods : list Pod.t) (runNum : Z) : option (W * roundResult) :=
  match getEligibleNodePools w shoot with
  | Err e => Some (w, (None, [], Some e))
  | Ok eligibleNodePools =>
      match triggerNodePoolSimulations schedule w eligibleNodePools runNum with
      | None => None
      | Some (w', resultCh) => Some (w', collectResults None resultCh)
      end
  end.

(** *** [Run] *)

Definition getShoot (w : W) (shootName : string) : Result Shoot.t :=
  match GetShootObj w shootName with
  | Err e => Err e
  | Ok shoot => Ok shoot
  end.

(** What [Run] returns, with the world and the log it leaves behind and
    the number of rounds ([runSimulation] calls) it made. *)
Record returned : Type :=
  { recommendation : Recommendation;
    error_ : option error;
    world : W;
    log : list logEntry;
    rounds : nat }.

Inductive outcome : Type :=
| Returns (r : returned)
| Panics.

(** The [for] loop of [Run], [fuel] bounding its iterations ([None] when
    the bound is hit).  [sim] is the round it calls. *)
Fixpoint RunLoop (sim : W -> Shoot.t -> list Pod.t -> Z -> option (W * roundResult))
    (fuel : nat) (shoot : Shoot.t) (recommendation : Recommendation)
    (unscheduledPods : list Pod.t) (runNumber : Z)
    (w : W) (log : list logEntry) (rounds : nat) : option outcome :=
  match fuel with
  | O => None
  | S fuel' =>
      let runNumber := GoInt.int (runNumber + 1) in
      let log := log ++ [LogRunStarted runNumber] in
      if GoInt.len unscheduledPods =? 0 then
        Some (Returns {| recommendation := recommendation; error_ := None;
                         world := w; log := log ++ [LogAllPodsScheduled];
                         rounds := rounds |})
      else
        match sim w shoot unscheduledPods runNumber with
        | None => Some Panics
        | Some (w', (winningNodeResult, unscheduledPods', err')) =>
            match err' with
            | Some e =>
                Some (Returns {| recommendation := recommendation;
                                 error_ := None; world := w';
                                 log := log ++ [LogSimulationError (Shoot.Name shoot) e];
                                 rounds := S rounds |})
            | None =>
                match winningNodeResult with
                | None =>
                    Some (Returns {| recommendation := recommendation;
                                     error_ := None; world := w';
                                     log := log ++ [LogNoWinner];
                                     rounds := S rounds |})
                | Some winner =>
                    RunLoop sim fuel' shoot recommendation unscheduledPods'
                      runNumber w'
                      (log ++ [LogWinningScore runNumber winner]) (S rounds)
                end
            end
        end
  end.

(** [Run], with the schedule of the goroutines of each round given by
    [schedules] (indexed by run number). *)
Definition Run (schedules : Z -> list nat) (shootName : string)
    (fuel : nat) (w : W) : option outcome :=
  let recommendation : Recommendation := ∅ in
  match ListPods w with
  | Err e =>
      Some (Returns {| recommendation := recommendation; error_ := Some e;
                       world := w; log := []; rounds := 0 |})
  | Ok unscheduledPods =>
      match getShoot w shootName with
      | Err e =>
          Some (Returns {| recommendation := recommendation; error_ := Some e;
                           world := w; log := [LogInternalError e];
                           rounds := 0 |})
      | Ok shoot =>
          RunLoop (fun w shoot pods runNum =>
                     runSimulation (schedules runNum) w shoot pods runNum)
                  fuel shoot recommendation unscheduledPods 0 w [] 0
      end
  end.

End Recommender.

(** ** The HTTP handler that clears the virtual cluster *)

Module http.

(** What an [http.ResponseWriter] has sent: the status line, fixed by the
    first [WriteHeader] or the first [Write], and the body written so far.
    Header fields are left out. *)
Record ResponseWriter : Type := { status : option Z; body : string }.

Definition fresh : ResponseWriter := {| status := None; body := "" |}.

Definition StatusOK : Z := 200.
Definition StatusInternalServerError : Z := 500.

(** A second [WriteHeader] is superfluous and changes nothing. *)
Definition WriteHeader (code : Z) (rw : ResponseWriter) : ResponseWriter :=
  match status rw with
  | None => {| status := Some code; body := body rw |}
  | Some _ => rw
  end.

(** [Write] sends the header with status 200 when none was sent yet. *)
Definition Write (data : string) (rw : ResponseWriter) : ResponseWriter :=
  let rw := WriteHeader StatusOK rw in
  {| status := status rw; body := body rw +:+ data |}.

(** [http.Error]: [WriteHeader(code)], then the message and a newline. *)
Definition Error (rw : ResponseWriter) (msg : string) (code : Z) : ResponseWriter :=
  Write (msg +:+ newline) (WriteHeader code rw).

End http.


(** ** An in-memory virtual cluster

    A small implementation of the gateway, used to run the definitions on
    concrete inputs: it keeps the nodes and pods, finds the nodes of a pool
    by their pool label, and fails a call when told to. *)
Module Sandbox.

Record t : Type :=
  { nodes : list Node.t;
    pods : list Pod.t;
    shoot : Result Shoot.t;
    failListNodes : option error;
    failListPods : option error;
    failListNodesInNodePool : option error;
    failAddNodes : option error;
    failClearAll : option error }.

Definition poolLabel : string := "worker.gardener.cloud/pool".

Definition inPool (name : string) (node : Node.t) : bool :=
  match Node.Labels node with
  | Some labels => bool_decide (labels !! poolLabel = Some name)
  | None => false
  end.

Definition orFail {A} (fail : option error) (a : A) : Result A :=
  match fail with Some e => Err e | None => Ok a end.

Definition withNodes (w : t) (ns : list Node.t) (ps : list Pod.t) : t :=
  {| nodes := ns; pods := ps; shoot := shoot w;
     failListNodes := failListNodes w; failListPods := failListPods w;
     failListNodesInNodePool := failListNodesInNodePool w;
     failAddNodes := failAddNodes w; failClearAll := failClearAll w |}.

#[export] Instance engine : Engine t :=
  {| ListPods w := orFail (failListPods w) (pods w);
     ListNodes w := orFail (failListNodes w) (nodes w);
     ListNodesInNodePool w name :=
       orFail (failListNodesInNodePool w) (List.filter (inPool name) (nodes w));
     AddNodes w ns :=
       match failAddNodes w with
       | Some e => (w, Some e)
       | None => (withNodes w (nodes w ++ ns) (pods w), None)
       end;
     ClearAll w :=
       match failClearAll w with
       | Some e => (w, Some e)
       | None => (withNodes w [] [], None)
       end;
     GetShootObj w _ := shoot w |}.

(** A healthy cluster with the given nodes, pods and worker pools. *)
Definition make (ns : list Node.t) (ps : list Pod.t) (workers : list Worker.t) : t :=
  {| nodes := ns; pods := ps;
     shoot := Ok {| Shoot.Name := "shoot"; Shoot.Workers := workers |};
     failListNodes := None; failListPods := None;
     failListNodesInNodePool := None;
     failAddNodes := None; failClearAll := None |}.

Definition node (name pool : string) : Node.t :=
  {| Node.Name := name; Node.Labels := Some {[ poolLabel := pool ]} |}.

Definition pod (name : string) : Pod.t :=
  {| Pod.Name := name; Pod.NodeName := "" |}.

Definition worker (name : string) (maximum : Z) : Worker.t :=
  {| Worker.Name := name; Worker.Zones := ["a"]; Worker.Maximum := maximum;
     Worker.MachineType := "m5.large" |}.

Definition boom : error := ErrMsg "connection refused".

End Sandbox.

(** ** Vocabulary of the statements *)

Section WinnerVocabulary.

Import Float64.

Definition score (r : runResult) : float64 :=
  NodeRunResult.CumulativeScore (result r).

Definition poolName (r : runResult) : string :=
  NodeRunResult.NodePoolName (result r).






End WinnerVocabulary.

(** A value on the channel that reports a failure, and one that reports a
    success. *)
Definition reportsFailure (r : runResult) : Prop := err r <> None.

Definition succeeded (r : runResult) : bool :=
  match err r with None => true | Some _ => false end.

(** The goroutine of the trial for [pool], at the point [p]. *)
Definition trialAt (pool : NodePool.t) (p : pc) : goroutine :=
  {| nodePool := pool; at_pc := p |}.

Definition hasReturned (g : goroutine) : bool :=
  match at_pc g with Returned => true | _ => false end.

(** How many of the goroutines have returned ([wg.Done] has run). *)
Definition returnedCount (gs : list goroutine) : nat :=
  length (List.filter hasReturned gs).

(** Every node has a label map. *)
Definition labelled (nodes : list Node.t) : Prop :=
  Forall (fun node => Node.Labels node <> None) nodes.

Section RunVocabulary.

Context {W : Type} {engine : Engine W}.






End RunVocabulary.

(** ** Example clusters *)

Module Examples.

Import Sandbox.

Definition sequential : Z -> list nat := fun _ => [].

(** One node in pool "A", one pending pod, pools "A" (at most 2 nodes) and
    "B" (at most 1). *)
Definition onePending : Sandbox.t :=
  make [node "n1" "A"] [pod "p1"] [worker "A" 2; worker "B" 1].

(** Pool "A" has reached its maximum of one node, pool "B" has none of
    its one. *)
Definition atMax : Sandbox.t :=
  make [node "n1" "A"] [pod "p1"] [worker "A" 1; worker "B" 1].

(** [onePending] with nothing pending. *)
Definition nonePending : Sandbox.t :=
  make [node "n1" "A"] [] [worker "A" 2; worker "B" 1].

(** Nothing pending, and the shoot cannot be fetched. *)
Definition nonePendingNoShoot : Sandbox.t :=
  {| nodes := [node "n1" "A"]; pods := []; shoot := Err boom;
     failListNodes := None; failListPods := None;
     failListNodesInNodePool := None;
     failAddNodes := None; failClearAll := None |}.

(** [onePending] with a gateway on which the given calls fail. *)
Definition failing (listNodes listNodesInNodePool addNodes clearAll : option error)
  : Sandbox.t :=
  {| nodes := nodes onePending; pods := pods onePending;
     shoot := shoot onePending;
     failListNodes := listNodes; failListPods := None;
     failListNodesInNodePool := listNodesInNodePool;
     failAddNodes := addNodes; failClearAll := clearAll |}.

Definition shootOf (w : Sandbox.t) : Shoot.t :=
  match shoot w with
  | Ok s => s
  | Err _ => {| Shoot.Name := ""; Shoot.Workers := [] |}
  end.

Definition poolA : NodePool.t :=
  {| NodePool.Name := "A"; NodePool.Zones := ["a"]; NodePool.Max := 2;
     NodePool.Current := 1; NodePool.MachineType := "m5.large" |}.

End Examples.

(** ** The HTTP handler that syncs the shoot nodes *)

(** [scalesim.ShootAccess], as far as the service uses it: the nodes of
    the shoot cluster.  The interface is declared outside the files at
    hand; the handler passes to [AddNodes] what [GetNodes] returned. *)
Class ShootAccess (W : Type) : Type :=
  { GetNodes : W -> Result (list Node.t) }.

(** A record written with [slog]: the level, the message and the one
    attribute the callers give. *)
Inductive slogRecord : Type :=
| SlogInfo (msg key : string) (value : Z)
| SlogError (msg key : string) (e : error).

Definition handleSyncShootNodes {W : Type} {engine : Engine W}
    {shootAccess : ShootAccess W} (w : W) (rw : http.ResponseWriter)
  : W * http.ResponseWriter * list slogRecord :=
  match GetNodes w with
  | Err e =>
      (w, http.Error rw (Error e) http.StatusInternalServerError, [])
  | Ok nodes =>
      let '(w', err) := AddNodes w nodes in
      match err with
      | Some e =>
          (w', http.Error rw (Error e) http.StatusInternalServerError, [])
      | None =>
          (w', rw,
           [SlogInfo "added nodes to virtual cluster." "num-nodes" (GoInt.len nodes)])
      end
  end.

(** ** The scenario runner

    [ScenarioRunner] of package [scaledown] runs one scenario against the
    engine and writes its progress to the response. *)

Module Scenario.

(** What the runner writes to the response, in order: a line through
    [webutil.Log] or [webutil.Logf], or an error through
    [webutil.InternalError]. *)
Inductive webEntry : Type :=
| Log (msg : string)
| InternalError (e : error).

(** The calls of the runner into code that is declared outside the files at
    hand: two more methods of the engine, one of the virtual cluster access,
    and functions of the packages [simutil] and [recommender].  [A], [R] and
    [D] are the types of the node-pod assignments, of the scale-up
    recommendation and of the scale-down recommendation, of which the runner
    only prints values.  A callee that is handed the response writer may
    write to it. *)
Class Collaborators (W A R D : Type) : Type :=
  { SyncVirtualNodesWithShoot : W -> string -> W * option error;
    ScaleAllWorkerPoolsTillMax :
      W -> string -> Shoot.t -> W * list webEntry * Result Z;
    CreatePodsFromYaml : W -> string -> Z -> W * option error;
    WaitTillNoUnscheduledPodsOrTimeout : W -> W * option error;
    GetNodePodAssignments : W -> A * option error;
    GetScalerRecommendation : W -> A -> Result R;
    ScaleDownOrderedByDescendingCost :
      W -> list Node.t -> W * list webEntry * (D * option error);
    (** [%s] of an [A] and of a [D], and [String()] of an [R]. *)
    formatAssignments : A -> string;
    formatScaleDown : D -> string;
    StringOf : R -> string }.

(** The fields of [ScenarioRunner] besides the engine.  [podRequests] is a
    Go map; the order in which [range] yields its entries is not fixed, and
    is an argument of the functions that iterate over it. *)
Record ScenarioRunner : Type :=
  { shootName : string;
    scenarioName : string;
    podRequests : gmap string Z }.

(** The state threaded through the runner: the world, what was written to
    the response, and what was written with [slog]. *)
Record state (W : Type) : Type :=
  { world : W; web : list webEntry; slog : list slogRecord }.
Arguments world {W} _.
Arguments web {W} _.
Arguments slog {W} _.

Section Runner.

Context {W A R D : Type} {engine : Engine W} {collab : Collaborators W A R D}.

Definition setWorld (st : state W) (w : W) : state W :=
  {| world := w; web := web st; slog := slog st |}.

Definition write (st : state W) (entries : list webEntry) : state W :=
  {| world := world st; web := web st ++ entries; slog := slog st |}.

Definition slogError (st : state W) (msg : string) (e : error) : state W :=
  {| world := world st; web := web st;
     slog := slog st ++ [SlogError msg "error" e] |}.

Definition completedWithError (s : ScenarioRunner) (e : error) : string :=
  "Execution of scenario: " +:+ scenarioName s +:+ " completed with error: "
  +:+ Error e.

Definition ranIntoError (s : ScenarioRunner) : string :=
  "Execution of scenario: " +:+ scenarioName s +:+ " ran into error".

Definition resetVirtualCluster (s : ScenarioRunner) (w : W) : W * option error :=
  let '(w1, err) := ClearAll w in
  match err with
  | Some e => (w1, Some e)
  | None =>
      let '(w2, err) := SyncVirtualNodesWithShoot w1 (shootName s) in
      match err with
      | Some e => (w2, Some e)
      | None => (w2, None)
      end
  end.

Definition createNodesInVirtualCluster (s : ScenarioRunner) (shoot : Shoot.t)
    (st : state W) : state W * option error :=
  let st := write st
    [Log "Scenario-Start: Scaling worker pools in virtual cluster till worker pool max..."] in
  let '(w1, written, res) :=
    ScaleAllWorkerPoolsTillMax (world st) (scenarioName s) shoot in
  let st := write (setWorld st w1) written in
  match res with
  | Err e => (st, Some e)
  | Ok numCreatedNodes =>
      (write st [Log ("Created " +:+ GoInt.Itoa numCreatedNodes
                      +:+ " total virtual nodes")], None)
  end.

(** The loop of [deployPods] over the entries the [range] yields. *)
Fixpoint deployLoop (entries : list (string * Z)) (st : state W)
  : state W * option error :=
  match entries with
  | [] => (st, None)
  | (podYamlPath, numPods) :: entries' =>
      let st := write st
        [Log ("Deploying podSpec " +:+ podYamlPath +:+ " with count "
              +:+ GoInt.Itoa numPods +:+ "...")] in
      let '(w1, err) := CreatePodsFromYaml (world st) podYamlPath numPods in
      match err with
      | Some e => (setWorld st w1, Some e)
      | None => deployLoop entries' (setWorld st w1)
      end
  end.

Definition deployPods (entries : list (string * Z)) (st : state W)
  : state W * option error :=
  match deployLoop entries st with
  | (st, Some e) => (st, Some e)
  | (st, None) =>
      let st := write st
        [Log "Waiting till there are no unschedulable pods or timeout of 30.00 secs"] in
      let '(w1, err) := WaitTillNoUnscheduledPodsOrTimeout (world st) in
      match err with
      | Some e => (setWorld st w1, Some e)
      | None => (setWorld st w1, None)
      end
  end.

Definition printPodDeploymentRecommendations (s : ScenarioRunner)
    (st : state W) : state W :=
  let '(nodePodAssignments, err) := GetNodePodAssignments (world st) in
  let st := write st
    [Log ("NodePodAssignments BEFORE Scale-Down are: "
          +:+ formatAssignments nodePodAssignments)] in
  match err with
  | Some e => write st [InternalError e]
  | None =>
      match GetScalerRecommendation (world st) nodePodAssignments with
      | Err e =>
          slogError (write st [Log (completedWithError s e)]) (ranIntoError s) e
      | Ok recommendation =>
          write st [Log ("Recommendation for Scaleup: " +:+ StringOf recommendation)]
      end
  end.

(** [ScenarioRunner.Run]; [entries] is what ranging over [podRequests]
    yields. *)
Definition Run (s : ScenarioRunner) (entries : list (string * Z)) (w : W)
  : state W :=
  let st := {| world := w; web := []; slog := [] |} in
  let '(w1, err) := resetVirtualCluster s (world st) in
  let st := setWorld st w1 in
  match err with
  | Some e => write st [InternalError e]
  | None =>
      match GetShootObj (world st) (shootName s) with
      | Err e => write st [InternalError e]
      | Ok shoot =>
          let '(st, err) := createNodesInVirtualCluster s shoot st in
          match err with
          | Some e =>
              slogError (write st [Log (completedWithError s e); InternalError e])
                        (ranIntoError s) e
          | None =>
              let '(st, err) := deployPods entries st in
              match err with
              | Some e =>
                  write (slogError (write st [Log (completedWithError s e)])
                                   (ranIntoError s) e)
                        [InternalError e]
              | None =>
                  let st := printPodDeploymentRecommendations s st in
                  match ListNodes (world st) with
                  | Err e => write st [InternalError e]
                  | Ok nodes =>
                      let '(w2, written, (scaleDownRecommentation, err)) :=
                        ScaleDownOrderedByDescendingCost (world st) nodes in
                      let st := write (setWorld st w2) written in
                      let st :=
                        match err with
                        | Some e =>
                            write (slogError (write st [Log (completedWithError s e)])
                                             (ranIntoError s) e)
                                  [InternalError e]
                        | None => st
                        end in
                      write st
                        [Log ("Recommendation for Scale-Down: "
                              +:+ formatScaleDown scaleDownRecommentation);
                         Log ("Scenario-End: " +:+ scenarioName s)]
                  end
              end
          end
      end
  end.

End Runner.

End Scenario.

(** ** Vocabulary of further statements *)

(** The least score so far never exceeds [MaxFloat64]. *)
Definition boundedMin (acc : runResult * Float64.float64) : Prop :=
  Float64.leb (snd acc) Float64.MaxFloat64 = true.

(** What a trial sends after listing the pods. *)
Definition podsReport (listed : Result (list Pod.t)) : list runResult :=
  match listed with
  | Ok _ => []
  | Err e => [{| result := NodeRunResult.zero; unscheduledPods := [];
                 err := Some e |}]
  end.

(** A node copy as a trial makes it from [node] under the label value
    [value]: renamed, labelled, and with the other labels of [node]. *)
Definition copyOf (value : string) (node copy : Node.t) : Prop :=
  Node.Name copy = Node.Name node +:+ "SimRun-" +:+ value /\
  exists labels labels',
    Node.Labels node = Some labels /\
    Node.Labels copy = Some labels' /\
    labels' !! labelKey = Some value /\
    forall key, key <> labelKey -> labels' !! key = labels !! key.

(** How far a trial goroutine is. *)
Definition rank (p : pc) : nat :=
  match p with
  | AtListNodes => 0
  | AtAddNodes _ => 1
  | AtListPods => 2
  | Returned => 3
  end.

(** How often the schedule names the goroutine [i]. *)
Definition turns (i : nat) (schedule : list nat) : nat :=
  length (List.filter (Nat.eqb i) schedule).

(** The label value of the trial for a pool in a run. *)
Definition labelValue (poolName : string) (runNum : Z) : string :=
  poolName +:+ "-" +:+ GoInt.Itoa runNum.

Section EligibilityVocabulary.

Context {W : Type} {engine : Engine W}.

(** The pool a worker contributes to the eligible pools: none when it is
    full (or when its nodes cannot be listed). *)
Definition eligibleOf (w : W) (worker : Worker.t) : list NodePool.t :=
  match ListNodesInNodePool w (Worker.Name worker) with
  | Ok nodes =>
      if GoInt.int32 (GoInt.len nodes) >=? Worker.Maximum worker
      then []
      else [nodePoolOf worker nodes]
  | Err _ => []
  end.

Definition listable (w : W) (worker : Worker.t) : Prop :=
  exists nodes, ListNodesInNodePool w (Worker.Name worker) = Ok nodes.

End EligibilityVocabulary.

(** ** Vocabulary of the statements about the scenario runner *)

(** The line [deployPods] writes before it creates the pods of an entry. *)
Definition deploying (entry : string * Z) : Scenario.webEntry :=
  Scenario.Log ("Deploying podSpec " +:+ fst entry +:+ " with count "
                +:+ GoInt.Itoa (snd entry) +:+ "...").


Definition scenarioStart : Scenario.webEntry :=
  Scenario.Log "Scenario-Start: Scaling worker pools in virtual cluster till worker pool max...".

Definition scenarioEnd (s : Scenario.ScenarioRunner) : Scenario.webEntry :=
  Scenario.Log ("Scenario-End: " +:+ Scenario.scenarioName s).

(** The two ways a scenario's output ends. *)
Definition endsScenario (s : Scenario.ScenarioRunner) (entry : Scenario.webEntry)
  : Prop :=
  entry = scenarioEnd s \/ exists e, entry = Scenario.InternalError e.

(** A [slog] record of the runner whose error is also on the response, in
    a "completed with error" line. *)
Definition reportedOn (s : Scenario.ScenarioRunner) (web : list Scenario.webEntry)
    (r : slogRecord) : Prop :=
  exists e, r = SlogError (Scenario.ranIntoError s) "error" e /\
            Scenario.Log (Scenario.completedWithError s e) ∈ web.


(** ** A rehearsal of the scenario runner

    Collaborators over the sandbox for examples: every preparation step
    succeeds and changes nothing, and scale-down always fails. *)
Module Rehearsal.

#[export] Instance collaborators
  : Scenario.Collaborators Sandbox.t (list string) string (list string) :=
  {| Scenario.SyncVirtualNodesWithShoot w _ := (w, None);
     Scenario.ScaleAllWorkerPoolsTillMax w _ _ := (w, [], Ok 0);
     Scenario.CreatePodsFromYaml w _ _ := (w, None);
     Scenario.WaitTillNoUnscheduledPodsOrTimeout w := (w, None);
     Scenario.GetNodePodAssignments _ := ([], None);
     Scenario.GetScalerRecommendation _ _ := Ok "none";
     Scenario.ScaleDownOrderedByDescendingCost w _ := (w, [], ([], Some Sandbox.boom));
     Scenario.formatAssignments _ := "[]";
     Scenario.formatScaleDown _ := "[]";
     Scenario.StringOf r := r |}.

Definition runner : Scenario.ScenarioRunner :=
  {| Scenario.shootName := "shoot"; Scenario.scenarioName := "small";
     Scenario.podRequests := {[ "a.yaml" := 2 ]} |}.

Definition entries : list (string * Z) := [("a.yaml", 2)].

(** The cluster [Examples.onePending] on which the pods cannot be listed. *)
Definition podsUnlistable : Sandbox.t :=
  {| Sandbox.nodes := Sandbox.nodes Examples.onePending;
     Sandbox.pods := Sandbox.pods Examples.onePending;
     Sandbox.shoot := Sandbox.shoot Examples.onePending;
     Sandbox.failListNodes := None; Sandbox.failListPods := Some Sandbox.boom;
     Sandbox.failListNodesInNodePool := None;
     Sandbox.failAddNodes := None; Sandbox.failClearAll := None |}.

End Rehearsal.

(** ** A cluster of named nodes

    A second small gateway for examples: the world is the list of node
    names, every node is listed with the pool label of pool "A", one pod is
    pending and no call fails. *)
Module NamedCluster.

Definition shoot : Shoot.t :=
  {| Shoot.Name := "shoot"; Shoot.Workers := [Sandbox.worker "A" 3] |}.

Definition nodesOf (names : list string) : list Node.t :=
  map (fun name => Sandbox.node name "A") names.

#[export] Instance engine : Engine (list string) :=
  {| ListPods _ := Ok [Sandbox.pod "p1"];
     ListNodes names := Ok (nodesOf names);
     ListNodesInNodePool names pool :=
       Ok (List.filter (Sandbox.inPool pool) (nodesOf names));
     AddNodes names nodes := (names ++ map Node.Name nodes, None);
     ClearAll _ := ([], None);
     GetShootObj _ _ := Ok shoot |}.

End NamedCluster.

(** * Properties *)

(** ** Order facts about [float64] comparison *)

Section Float64Order.

Import Float64.

Local Ltac order_cases :=
  repeat match goal with
    | |- context [Z.compare ?a ?b] => destruct (Z.compare_spec a b); subst
    | H : context [Z.compare ?a ?b] |- _ => destruct (Z.compare_spec a b); subst
    | |- context [Pos.compare ?a ?b] => destruct (Pos.compare_spec a b); subst
    | H : context [Pos.compare ?a ?b] |- _ => destruct (Pos.compare_spec a b); subst
    end.

Local Ltac float_cases :=
  unfold ltb, leb, is_nan, SFltb, SFleb, SFcompare;
  repeat match goal with
    | x : float64 |- _ => destruct x as [[]|[]| |[] ? ?]
    end;
  intros; change (Pos.compare_cont Eq) with Pos.compare in *;
  simpl in *; try discriminate; try reflexivity;
  order_cases; simpl in *; try discriminate; try reflexivity; try lia.

Lemma ltb_trans (a b c : float64) :
  ltb a b = true -> ltb b c = true -> ltb a c = true.
Proof. float_cases. Qed.

Lemma ltb_leb_trans (a b c : float64) :
  ltb a b = true -> leb b c = true -> ltb a c = true.
Proof. float_cases. Qed.

Lemma ltb_leb (a b : float64) : ltb a b = true -> leb a b = true.
Proof. float_cases. Qed.




(** The constants are binary64 values in canonical form, and the successor
    of [MaxFloat64]'s exponent is out of range. *)
Lemma constants_valid :
  valid_binary 53 1024 MaxFloat64 = true /\
  valid_binary 53 1024 one = true /\
  valid_binary 53 1024 two = true /\
  valid_binary 53 1024 (S754_finite false (2 ^ 53 - 1) 972) = false.
Proof. repeat split; reflexivity. Qed.

End Float64Order.

(** ** Winner selection *)

Section Winner.

Import Float64.






End Winner.

(** ** Trials and rounds *)

Section Rounds.

Context {W : Type} {engine : Engine W}.

(** A trial goroutine only ever sends failures. *)
Lemma stepTrial_sends_failures runNum g w ch g' w' ch' :
  stepTrial runNum g w ch = Some (g', w', ch') ->
  exists sent, ch' = ch ++ sent /\ Forall reportsFailure sent /\
               (length sent <= 1)%nat.
Proof.
  unfold stepTrial. intros H.
  destruct (at_pc g) as [| NodeList | |].
  - destruct (ListNodes w) as [nodes | e].
    + destruct (mapM _ nodes); [| discriminate].
      inversion H; subst. exists []. rewrite app_nil_r. auto.
    + inversion H; subst. exists [failed e]. repeat split; auto.
      constructor; [| constructor]. unfold reportsFailure. simpl. discriminate.
  - destruct (AddNodes w NodeList) as [w1 e1]. inversion H; subst.
    exists []. rewrite app_nil_r. auto.
  - destruct (ListPods w) as [pods | e]; inversion H; subst.
    + exists []. rewrite app_nil_r. auto.
    + exists [failed e]. repeat split; auto.
      constructor; [| constructor]. unfold reportsFailure. simpl. discriminate.
  - inversion H; subst. exists []. rewrite app_nil_r. auto.
Qed.

Lemma runSchedule_sends_failures runNum schedule :
  forall gs w ch gs' w' ch',
    runSchedule runNum schedule gs w ch = Some (gs', w', ch') ->
    Forall reportsFailure ch -> Forall reportsFailure ch'.
Proof.
  induction schedule as [| i schedule IH]; simpl; intros gs w ch gs' w' ch' H Hch.
  - inversion H; subst. exact Hch.
  - destruct (gs !! i) as [g |]; [| eauto].
    destruct (stepTrial runNum g w ch) as [[[g1 w1] ch1] |] eqn:Hstep; [| discriminate].
    apply stepTrial_sends_failures in Hstep as (sent & -> & Hsent & _).
    eapply IH; [exact H |]. apply Forall_app. auto.
Qed.

Lemma triggerNodePoolSimulations_sends_failures schedule w nodePools runNum w' ch :
  triggerNodePoolSimulations schedule w nodePools runNum = Some (w', ch) ->
  Forall reportsFailure ch.
Proof.
  unfold triggerNodePoolSimulations. intros H.
  destruct (runSchedule _ _ _ _ _) as [[[gs1 w1] ch1] |] eqn:Hrun; [| discriminate].
  inversion H; subst.
  eapply runSchedule_sends_failures; [exact Hrun | constructor].
Qed.

(** The receiving loop drops every failure, and drops it without a trace:
    [errs] stays nil. *)
Lemma collectStep_failures err0 ch :
  forall results,
    Forall reportsFailure ch ->
    fold_left (collectStep err0) ch (results, None) = (results, None).
Proof.
  induction ch as [| r ch IH]; simpl; intros results Hch; [reflexivity |].
  inversion Hch as [| ? ? Hr Hch']; subst.
  unfold reportsFailure in Hr.
  destruct (err r) eqn:Herr; [| congruence].
  apply IH. exact Hch'.
Qed.

Lemma collectStep_errs_nil err0 ch :
  forall results, snd (fold_left (collectStep err0) ch (results, None)) = None.
Proof.
  induction ch as [| r ch IH]; simpl; intros results; [reflexivity |].
  destruct (err r); apply IH.
Qed.

Lemma collectResults_failures err0 ch :
  Forall reportsFailure ch ->
  collectResults err0 ch = (Some NodeRunResult.zero, [], None).
Proof.
  intros Hch. unfold collectResults.
  rewrite collectStep_failures by exact Hch. reflexivity.
Qed.

(** The three ways a round can end. *)
Lemma runSimulation_cases schedule w shoot pods runNum :
  runSimulation schedule w shoot pods runNum = None \/
  (exists e, runSimulation schedule w shoot pods runNum
             = Some (w, (None, [], Some e))) \/
  (exists w', runSimulation schedule w shoot pods runNum
              = Some (w', (Some NodeRunResult.zero, [], None))).
Proof.
  unfold runSimulation.
  destruct (getEligibleNodePools w shoot) as [pools | e].
  - destruct (triggerNodePoolSimulations schedule w pools runNum)
      as [[w' ch] |] eqn:Htrig.
    + right. right. exists w'.
      rewrite collectResults_failures; [reflexivity |].
      eapply triggerNodePoolSimulations_sends_failures; eauto.
    + left. reflexivity.
  - right. left. exists e. reflexivity.
Qed.

End Rounds.

(** ** The loop of [Run] *)

Section Loop.

Context {W : Type} {engine : Engine W}.

(** Whatever the rounds do, the loop hands back the recommendation it was
    started with, and a nil error. *)
Lemma RunLoop_returns_unchanged
    (sim : W -> Shoot.t -> list Pod.t -> Z -> option (W * roundResult)) fuel :
  forall shoot rec pods runNumber w lg k r,
    RunLoop sim fuel shoot rec pods runNumber w lg k = Some (Returns r) ->
    recommendation r = rec /\ error_ r = None.
Proof.
  induction fuel as [| fuel IH]; simpl; intros shoot rec pods runNumber w lg k r H;
    [discriminate |].
  destruct (GoInt.len pods =? 0).
  - inversion H; subst. auto.
  - destruct (sim w shoot pods _) as [[w' [[win pods'] e']] |]; [| discriminate].
    destruct e' as [e |].
    + inversion H; subst. auto.
    + destruct win as [win |].
      * eapply IH. exact H.
      * inversion H; subst. auto.
Qed.

Lemma len_nil_iff {A} (l : list A) : (GoInt.len l =? 0) = true <-> l = [].
Proof.
  unfold GoInt.len. destruct l; simpl; split; intros H; try reflexivity;
    try discriminate.
Qed.

(** The loop with the rounds of the program: two iterations are enough. *)
Lemma RunLoop_two_iterations schedules fuel shoot rec pods w lg k :
  exists o,
    RunLoop (fun w shoot pods runNum =>
               runSimulation (schedules runNum) w shoot pods runNum)
            (S (S fuel)) shoot rec pods 0 w lg k = Some o /\
    match o with
    | Panics =>
        pods <> [] /\ runSimulation (schedules 1) w shoot pods 1 = None
    | Returns r =>
        recommendation r = rec /\ error_ r = None /\
        (pods = [] -> world r = w /\ rounds r = k) /\
        (pods <> [] -> rounds r = S k)
    end.
Proof.
  cbn [RunLoop]. change (GoInt.int (0 + 1)) with 1.
  destruct (GoInt.len pods =? 0) eqn:Hlen.
  - apply len_nil_iff in Hlen. subst pods.
    eexists. split; [reflexivity |]. simpl. repeat split; auto; congruence.
  - assert (Hne : pods <> []).
    { intros ->. discriminate. }
    destruct (runSimulation_cases (schedules 1) w shoot pods 1)
      as [Hp | [[e He] | [w' Hw]]].
    + rewrite Hp. eexists. split; [reflexivity |]. split; [exact Hne | reflexivity].
    + rewrite He. eexists. split; [reflexivity |]. simpl.
      repeat split; auto; congruence.
    + rewrite Hw. simpl. eexists. split; [reflexivity |]. simpl.
      repeat split; auto; congruence.
Qed.

End Loop.

(** ** [Run] *)

Section RunProperties.

Context {W : Type} {engine : Engine W}.



(** C7, as amended: when nothing is pending and the shoot is fetched, [Run]
    returns the empty recommendation and a nil error, runs no round and
    leaves the virtual cluster as it found it. *)
Theorem Run_empty_pending schedules shootName fuel (w : W) shoot :
  ListPods w = Ok [] ->
  getShoot w shootName = Ok shoot ->
  exists r,
    Run schedules shootName (S fuel) w = Some (Returns r) /\
    recommendation r = ∅ /\ error_ r = None /\ world r = w /\
    rounds r = 0%nat.
Proof.
  intros Hpods Hshoot. unfold Run. rewrite Hpods, Hshoot.
  eexists. split; [reflexivity |]. simpl. auto.
Qed.


End RunProperties.

(** ** Eligible pools *)

Section Eligibility.

Context {W : Type} {engine : Engine W}.

(** The conversion [int32(len(nodes))] is exact below 2^31. *)
Lemma int32_len_exact {A} (nodes : list A) :
  GoInt.len nodes < 2 ^ 31 -> GoInt.int32 (GoInt.len nodes) = GoInt.len nodes.
Proof.
  unfold GoInt.int32, GoInt.wrap, GoInt.len. intros H.
  rewrite Z.mod_small by lia. lia.
Qed.

(** What the loop over the workers appends to the slice. *)
Lemma eligibleLoop_spec (w : W) workers :
  forall acc pools,
    eligibleLoop w workers acc = Ok pools ->
    forall p, p ∈ pools <->
      p ∈ acc \/
      exists worker nodes,
        worker ∈ workers /\
        ListNodesInNodePool w (Worker.Name worker) = Ok nodes /\
        GoInt.int32 (GoInt.len nodes) < Worker.Maximum worker /\
        p = nodePoolOf worker nodes.
Proof.
  induction workers as [| worker workers IH]; simpl; intros acc pools H p.
  - inversion H; subst. split; [auto |].
    intros [Hp | (wk & ns & Hin & _)]; [exact Hp |].
    by apply elem_of_nil in Hin.
  - destruct (ListNodesInNodePool w (Worker.Name worker)) as [nodes | e] eqn:Hlist;
      [| discriminate].
    destruct (GoInt.int32 (GoInt.len nodes) >=? Worker.Maximum worker) eqn:Hcmp.
    + rewrite (IH _ _ H p). split.
      * intros [Hp | (wk & ns & Hin & Hrest)]; [auto |].
        right. exists wk, ns. split; [apply elem_of_cons; auto | exact Hrest].
      * intros [Hp | (wk & ns & Hin & Hl & Hlt & Hp)]; [auto |].
        apply elem_of_cons in Hin as [-> | Hin].
        -- rewrite Hlist in Hl. inversion Hl; subst. lia.
        -- right. exists wk, ns. auto.
    + rewrite (IH _ _ H p). split.
      * intros [Hp | (wk & ns & Hin & Hrest)].
        -- apply elem_of_app in Hp as [Hp | Hp]; [auto |].
           apply list_elem_of_singleton in Hp. right.
           exists worker, nodes. repeat split; auto.
           ++ apply elem_of_cons; auto.
           ++ lia.
        -- right. exists wk, ns. split; [apply elem_of_cons; auto | exact Hrest].
      * intros [Hp | (wk & ns & Hin & Hl & Hlt & Hp)].
        -- left. apply elem_of_app. auto.
        -- apply elem_of_cons in Hin as [-> | Hin].
           ++ rewrite Hlist in Hl. inversion Hl; subst.
              left. apply elem_of_app. right. by apply list_elem_of_singleton.
           ++ right. exists wk, ns. auto.
Qed.

(** The loop fails only when a listing fails. *)
Lemma eligibleLoop_succeeds (w : W) workers :
  (forall worker, worker ∈ workers ->
     exists nodes, ListNodesInNodePool w (Worker.Name worker) = Ok nodes) ->
  forall acc, exists pools, eligibleLoop w workers acc = Ok pools.
Proof.
  induction workers as [| worker workers IH]; simpl; intros Hall acc.
  - eauto.
  - destruct (Hall worker) as [nodes ->]; [apply elem_of_cons; auto |].
    assert (Hrest : forall wk, wk ∈ workers ->
              exists ns, ListNodesInNodePool w (Worker.Name wk) = Ok ns).
    { intros wk Hin. apply Hall. apply elem_of_cons. auto. }
    destruct (_ >=? _); apply IH; exact Hrest.
Qed.

(** When the loop succeeds, every worker's nodes were listed. *)
Lemma eligibleLoop_listed (w : W) workers :
  forall acc pools,
    eligibleLoop w workers acc = Ok pools ->
    forall worker, worker ∈ workers ->
      exists nodes, ListNodesInNodePool w (Worker.Name worker) = Ok nodes.
Proof.
  induction workers as [| wk workers IH]; simpl; intros acc pools H worker Hin.
  - by apply elem_of_nil in Hin.
  - destruct (ListNodesInNodePool w (Worker.Name wk)) as [nodes | e] eqn:Hlist;
      [| discriminate].
    apply elem_of_cons in Hin as [-> | Hin]; [eauto |].
    destruct (_ >=? _); eapply IH; eauto.
Qed.

(** C6: [getEligibleNodePools] fails only when the nodes of some pool
    cannot be listed, never because a pool is full.  In the list it returns,
    the pool of a worker is present exactly when its node count, as the
    [int32] the code compares, is below the worker's maximum (below 2^31
    nodes that [int32] is the node count itself), and every pool of the list
    has [Current < Max]. *)
Theorem getEligibleNodePools_iff (w : W) shoot :
  ((forall worker, worker ∈ Shoot.Workers shoot ->
      exists nodes, ListNodesInNodePool w (Worker.Name worker) = Ok nodes) ->
   exists pools, getEligibleNodePools w shoot = Ok pools) /\
  (forall pools,
     getEligibleNodePools w shoot = Ok pools ->
     (forall worker,
        worker ∈ Shoot.Workers shoot ->
        exists nodes,
          ListNodesInNodePool w (Worker.Name worker) = Ok nodes /\
          (nodePoolOf worker nodes ∈ pools <->
           GoInt.int32 (GoInt.len nodes) < Worker.Maximum worker) /\
          (GoInt.len nodes < 2 ^ 31 ->
           (nodePoolOf worker nodes ∈ pools <->
            GoInt.len nodes < Worker.Maximum worker))) /\
     (forall p, p ∈ pools -> NodePool.Current p < NodePool.Max p)).
Proof.
  unfold getEligibleNodePools. split.
  - intros Hall. exact (eligibleLoop_succeeds w (Shoot.Workers shoot) Hall []).
  - intros pools Hpools.
    pose proof (eligibleLoop_spec w _ _ _ Hpools) as Hspec.
    split.
    + intros worker Hin.
      destruct (eligibleLoop_listed w _ _ _ Hpools worker Hin) as [nodes Hlist].
      exists nodes. split; [exact Hlist |].
      assert (Hiff : nodePoolOf worker nodes ∈ pools <->
                     GoInt.int32 (GoInt.len nodes) < Worker.Maximum worker).
      { rewrite Hspec. split.
        - intros [Hnil | (wk & ns & Hin' & Hl & Hlt & Heq)].
          + by apply elem_of_nil in Hnil.
          + assert (Hname : Worker.Name worker = Worker.Name wk)
              by exact (f_equal NodePool.Name Heq).
            assert (Hmax : Worker.Maximum worker = Worker.Maximum wk)
              by exact (f_equal NodePool.Max Heq).
            rewrite <- Hname, Hlist in Hl. inversion Hl; subst ns.
            rewrite Hmax. exact Hlt.
        - intros Hlt. right. exists worker, nodes. auto. }
      split; [exact Hiff |].
      intros Hsmall. rewrite <- (int32_len_exact nodes Hsmall). exact Hiff.
    + intros p Hp. apply Hspec in Hp as [Hnil | (wk & ns & _ & _ & Hlt & ->)].
      * by apply elem_of_nil in Hnil.
      * exact Hlt.
Qed.

End Eligibility.

(** ** A single trial *)

Section SingleTrial.

Context {W : Type} {engine : Engine W}.

Variable runNum : Z.
Variable pool : NodePool.t.

Local Abbreviation G := (trialAt pool).

Lemma single_returned schedule :
  forall (w : W) ch,
    runSchedule runNum schedule [G Returned] w ch = Some ([G Returned], w, ch).
Proof.
  induction schedule as [| i schedule IH]; intros w ch; [reflexivity |].
  destruct i as [| i]; simpl; apply IH.
Qed.

Lemma single_at_ListPods (w : W) pods :
  ListPods w = Ok pods ->
  forall schedule rest ch,
    runSchedule runNum (schedule ++ 0%nat :: rest) [G AtListPods] w ch
    = Some ([G Returned], w, ch).
Proof.
  intros Hpods.
  induction schedule as [| i schedule IH]; intros rest ch.
  - simpl. unfold stepTrial. simpl. rewrite Hpods. simpl.
    apply single_returned.
  - destruct i as [| i]; simpl.
    + unfold stepTrial. simpl. rewrite Hpods. simpl. apply single_returned.
    + apply IH.
Qed.

Lemma single_at_AddNodes (w w' : W) NodeList eo pods :
  AddNodes w NodeList = (w', eo) ->
  ListPods w' = Ok pods ->
  forall schedule rest ch,
    runSchedule runNum (schedule ++ 0%nat :: 0%nat :: rest)
      [G (AtAddNodes NodeList)] w ch
    = Some ([G Returned], w', ch).
Proof.
  intros Hadd Hpods.
  induction schedule as [| i schedule IH]; intros rest ch.
  - simpl. unfold stepTrial at 1. simpl. rewrite Hadd. simpl.
    apply (single_at_ListPods w' pods Hpods []).
  - destruct i as [| i]; simpl.
    + unfold stepTrial at 1. simpl. rewrite Hadd. simpl.
      change (schedule ++ 0%nat :: 0%nat :: rest)
        with (schedule ++ [0%nat] ++ 0%nat :: rest).
      rewrite app_assoc. apply (single_at_ListPods w' pods Hpods).
    + apply IH.
Qed.

Lemma single_at_ListNodes (w w' : W) nodes NodeList eo pods :
  ListNodes w = Ok nodes ->
  mapM (labelNodeCopy (NodePool.Name pool +:+ "-" +:+ GoInt.Itoa runNum)) nodes
    = Some NodeList ->
  AddNodes w NodeList = (w', eo) ->
  ListPods w' = Ok pods ->
  forall schedule rest ch,
    runSchedule runNum (schedule ++ 0%nat :: 0%nat :: 0%nat :: rest)
      [G AtListNodes] w ch
    = Some ([G Returned], w', ch).
Proof.
  intros Hnodes Hlabel Hadd Hpods.
  induction schedule as [| i schedule IH]; intros rest ch.
  - simpl. unfold stepTrial at 1. simpl. rewrite Hnodes, Hlabel. simpl.
    apply (single_at_AddNodes w w' NodeList eo pods Hadd Hpods []).
  - destruct i as [| i]; simpl.
    + unfold stepTrial at 1. simpl. rewrite Hnodes, Hlabel. simpl.
      change (schedule ++ 0%nat :: 0%nat :: 0%nat :: rest)
        with (schedule ++ [0%nat] ++ 0%nat :: 0%nat :: rest).
      rewrite app_assoc.
      apply (single_at_AddNodes w w' NodeList eo pods Hadd Hpods).
    + apply IH.
Qed.

(** A trial whose two listings succeed sends nothing, whatever [AddNodes]
    returned and however the goroutine is scheduled. *)
Lemma single_trial_silent schedule (w w' : W) nodes NodeList eo pods :
  ListNodes w = Ok nodes ->
  mapM (labelNodeCopy (NodePool.Name pool +:+ "-" +:+ GoInt.Itoa runNum)) nodes
    = Some NodeList ->
  AddNodes w NodeList = (w', eo) ->
  ListPods w' = Ok pods ->
  triggerNodePoolSimulations schedule w [pool] runNum = Some (w', []).
Proof.
  intros Hnodes Hlabel Hadd Hpods. unfold triggerNodePoolSimulations.
  change (drainSchedule (length [pool])) with [0%nat; 0%nat; 0%nat].
  change (map _ [pool]) with [G AtListNodes].
  rewrite (single_at_ListNodes w w' nodes NodeList eo pods Hnodes Hlabel Hadd Hpods).
  reflexivity.
Qed.

End SingleTrial.

(** ** What trials report *)

Section Reports.

Context {W : Type} {engine : Engine W}.

(** C3, at the code: whatever the channel carried, the round returns a
    non-nil winner, chosen by [getWinner] among the results without error,
    and a nil error.  When every trial failed the winner is the zero value
    and no error is reported. *)
Theorem collectResults_never_errors (err0 : option error) (resultCh : channel) :
  collectResults err0 resultCh =
  (Some (result (getWinner (List.filter succeeded resultCh))),
   unscheduledPods (getWinner (List.filter succeeded resultCh)),
   None).
Proof.
  unfold collectResults.
  assert (H : forall ch results,
             fold_left (collectStep err0) ch (results, None)
             = (results ++ List.filter succeeded ch, None)).
  { induction ch as [| r ch IH]; intros results; simpl.
    - by rewrite app_nil_r.
    - unfold succeeded at 1. destruct (err r).
      + apply IH.
      + rewrite IH. by rewrite <- app_assoc. }
  rewrite H. reflexivity.
Qed.

(** C5, at the code: a trial whose gateway calls all succeed returns
    without sending anything; the channel is closed empty. *)
Theorem successful_trial_sends_nothing schedule (w w' : W) nodePool runNum
    nodes NodeList pods :
  ListNodes w = Ok nodes ->
  mapM (labelNodeCopy (NodePool.Name nodePool +:+ "-" +:+ GoInt.Itoa runNum)) nodes
    = Some NodeList ->
  AddNodes w NodeList = (w', None) ->
  ListPods w' = Ok pods ->
  triggerNodePoolSimulations schedule w [nodePool] runNum = Some (w', []).
Proof. apply single_trial_silent. Qed.



End Reports.

(** ** The channel buffer, and panics *)

Section Buffer.

Context {W : Type} {engine : Engine W}.

Lemma returnedCount_insert gs :
  forall i g g',
    gs !! i = Some g ->
    (returnedCount (<[i := g']> gs) + (if hasReturned g then 1 else 0)
     = returnedCount gs + (if hasReturned g' then 1 else 0))%nat.
Proof.
  unfold returnedCount.
  induction gs as [| x gs IH]; intros i g g' Hi; [discriminate |].
  destruct i as [| i]; simpl in *.
  - inversion Hi; subst. destruct (hasReturned g), (hasReturned g'); simpl; lia.
  - specialize (IH i g g' Hi). destruct (hasReturned x); simpl; lia.
Qed.

Lemma returnedCount_le gs : (returnedCount gs <= length gs)%nat.
Proof.
  unfold returnedCount. induction gs as [| x gs IH]; simpl; [lia |].
  destruct (hasReturned x); simpl; lia.
Qed.

(** A goroutine sends at most once, and only as it returns. *)
Lemma stepTrial_sends_once runNum g (w : W) ch g' w' ch' :
  stepTrial runNum g w ch = Some (g', w', ch') ->
  (length ch' + (if hasReturned g then 1 else 0)
   <= length ch + (if hasReturned g' then 1 else 0))%nat.
Proof.
  unfold stepTrial, hasReturned. intros H.
  destruct (at_pc g) as [| NodeList | |] eqn:Hpc.
  - destruct (ListNodes w) as [nodes | e].
    + destruct (mapM _ nodes); [| discriminate]. inversion H; subst. simpl. lia.
    + inversion H; subst. rewrite length_app. simpl. lia.
  - destruct (AddNodes w NodeList) as [w1 e1]. inversion H; subst. simpl. lia.
  - destruct (ListPods w) as [pods | e]; inversion H; subst; simpl; [lia |].
    rewrite length_app. simpl. lia.
  - inversion H; subst. rewrite Hpc. lia.
Qed.

Lemma runSchedule_within_capacity runNum schedule :
  forall gs (w : W) ch gs' w' ch',
    runSchedule runNum schedule gs w ch = Some (gs', w', ch') ->
    (length ch <= returnedCount gs)%nat ->
    (length ch' <= returnedCount gs')%nat /\ length gs' = length gs.
Proof.
  induction schedule as [| i schedule IH]; simpl; intros gs w ch gs' w' ch' H Hch.
  - inversion H; subst. auto.
  - destruct (gs !! i) as [g |] eqn:Hi; [| eauto].
    destruct (stepTrial runNum g w ch) as [[[g1 w1] ch1] |] eqn:Hstep; [| discriminate].
    apply stepTrial_sends_once in Hstep.
    pose proof (returnedCount_insert gs i g g1 Hi) as Hcount.
    destruct (IH _ _ _ _ _ _ H) as [Hlen Hgs]; [lia |].
    rewrite length_insert in Hgs. auto.
Qed.

(** The values sent in a round fit the buffer the channel was made with:
    no send blocks. *)
Lemma resultCh_within_capacity schedule (w : W) nodePools runNum w' ch :
  triggerNodePoolSimulations schedule w nodePools runNum = Some (w', ch) ->
  GoInt.len ch <= resultChCap nodePools.
Proof.
  unfold triggerNodePoolSimulations, resultChCap, GoInt.len. intros H.
  destruct (runSchedule _ _ _ _ _) as [[[gs1 w1] ch1] |] eqn:Hrun; [| discriminate].
  inversion H; subst.
  apply runSchedule_within_capacity in Hrun as [Hlen Hgs]; [| simpl; lia].
  pose proof (returnedCount_le gs1). rewrite length_map in Hgs. lia.
Qed.

(** A trial panics only on a node without a label map. *)
Lemma stepTrial_labelled runNum g (w : W) ch :
  (forall nodes, ListNodes w = Ok nodes -> labelled nodes) ->
  exists next, stepTrial runNum g w ch = Some next.
Proof.
  intros Hlab. unfold stepTrial.
  destruct (at_pc g) as [| NodeList | |]; eauto.
  - destruct (ListNodes w) as [nodes | e] eqn:Hnodes; eauto.
    destruct (mapM _ nodes) eqn:Hmap; eauto.
    apply mapM_None in Hmap. apply Exists_exists in Hmap as (node & Hin & Hnone).
    specialize (Hlab nodes eq_refl). unfold labelled in Hlab.
    rewrite Forall_forall in Hlab. specialize (Hlab node Hin).
    unfold labelNodeCopy in Hnone. destruct (Node.Labels node); congruence.
  - destruct (AddNodes w NodeList). eauto.
  - destruct (ListPods w); eauto.
Qed.

Lemma runSchedule_labelled runNum schedule :
  (forall (w : W) nodes, ListNodes w = Ok nodes -> labelled nodes) ->
  forall gs w ch, exists final, runSchedule runNum schedule gs w ch = Some final.
Proof.
  intros Hlab. induction schedule as [| i schedule IH]; simpl; intros gs w ch; eauto.
  destruct (gs !! i) as [g |]; [| apply IH].
  destruct (stepTrial_labelled runNum g w ch (Hlab w)) as [[[g1 w1] ch1] ->].
  apply IH.
Qed.

(** X13: on a gateway that lists only nodes with label maps, no round
    panics and [Run] returns, within two iterations of its loop. *)
Lemma Run_returns_when_nodes_labelled schedules shootName fuel (w : W) :
  (forall (w : W) nodes, ListNodes w = Ok nodes -> labelled nodes) ->
  exists r, Run schedules shootName (S (S fuel)) w = Some (Returns r).
Proof.
  intros Hlab. unfold Run.
  destruct (ListPods w) as [pods | e]; eauto.
  destruct (getShoot w shootName) as [shoot | e]; eauto.
  destruct (RunLoop_two_iterations schedules fuel shoot ∅ pods w [] 0%nat)
    as (o & Hrun & Ho).
  rewrite Hrun. destruct o as [r |]; eauto.
  destruct Ho as [_ Hpanic]. exfalso.
  unfold runSimulation, triggerNodePoolSimulations in Hpanic.
  destruct (getEligibleNodePools w shoot) as [pools | e]; [| discriminate].
  match type of Hpanic with
  | context [runSchedule ?n ?s ?gs ?w0 ?c] =>
      destruct (runSchedule_labelled n s Hlab gs w0 c) as [[[gs1 w1] ch1] Hs];
      rewrite Hs in Hpanic
  end.
  discriminate.
Qed.

End Buffer.

(** ** The properties on the example clusters *)

Section OnExamples.

Import Sandbox Examples.





(** Witness of [getEligibleNodePools_iff]: pool "A" is at its maximum and
    left out without an error, pool "B" is kept. *)
Lemma getEligibleNodePools_iff_witness :
  getEligibleNodePools atMax (shootOf atMax)
  = Ok [nodePoolOf (worker "B" 1) []] /\
  (forall worker,
     worker ∈ Shoot.Workers (shootOf atMax) ->
     exists nodes,
       ListNodesInNodePool atMax (Worker.Name worker) = Ok nodes /\
       (nodePoolOf worker nodes ∈ [nodePoolOf (Sandbox.worker "B" 1) []] <->
        GoInt.int32 (GoInt.len nodes) < Worker.Maximum worker) /\
       (GoInt.len nodes < 2 ^ 31 ->
        (nodePoolOf worker nodes ∈ [nodePoolOf (Sandbox.worker "B" 1) []] <->
         GoInt.len nodes < Worker.Maximum worker))) /\
  (forall p, p ∈ [nodePoolOf (worker "B" 1) []] ->
     NodePool.Current p < NodePool.Max p).
Proof.
  split; [reflexivity |].
  apply (proj2 (getEligibleNodePools_iff atMax (shootOf atMax))).
  reflexivity.
Defined.

(** Witness of [Run_empty_pending]. *)
Lemma Run_empty_pending_witness :
  exists r,
    Run sequential "shoot" 1 nonePending = Some (Returns r) /\
    recommendation r = ∅ /\ error_ r = None /\ world r = nonePending /\
    rounds r = 0%nat.
Proof.
  apply (Run_empty_pending sequential "shoot" 0 nonePending (shootOf nonePending));
    reflexivity.
Defined.

(** C7, as stated, fails: nothing is pending, the shoot cannot be fetched,
    and [Run] returns that error. *)
Lemma Run_empty_pending_shoot_error :
  ListPods nonePendingNoShoot = Ok [] /\
  exists r,
    Run sequential "shoot" 1 nonePendingNoShoot = Some (Returns r) /\
    error_ r = Some boom.
Proof.
  split; [reflexivity |]. eexists. split; reflexivity.
Qed.


(** Witness of [successful_trial_sends_nothing]: a healthy cluster, one
    trial for pool "A". *)
Lemma successful_trial_sends_nothing_witness :
  exists w',
    triggerNodePoolSimulations [] onePending [poolA] 1 = Some (w', []).
Proof.
  eexists.
  eapply (successful_trial_sends_nothing [] onePending _ poolA 1); reflexivity.
Defined.



(** The round of C3's failing input: the nodes cannot be listed, the one
    trial fails, and the round returns a winner and no error. *)
Example runSimulation_all_trials_failed :
  runSimulation [] (failing (Some boom) None None None)
    {| Shoot.Name := "shoot"; Shoot.Workers := [worker "A" 2] |} [pod "p1"] 1
  = Some (failing (Some boom) None None None,
          (Some NodeRunResult.zero, [], None)).
Proof. reflexivity. Qed.

End OnExamples.

(** * Further properties *)

(** ** [getWinner] on any scores *)

Section WinnerEdges.

Import Float64.

Lemma getWinner_step_bounded acc v :
  boundedMin acc -> boundedMin (getWinner_step acc v).
Proof.
  unfold boundedMin, getWinner_step. intros Hacc. fold (score v).
  destruct (ltb (score v) (snd acc)) eqn:Hcmp; [| exact Hacc].
  simpl. apply ltb_leb. eapply ltb_leb_trans; eauto.
Qed.

Lemma getWinner_step_unbeatable acc v :
  boundedMin acc ->
  ltb (score v) MaxFloat64 = false ->
  getWinner_step acc v = acc.
Proof.
  unfold boundedMin, getWinner_step. intros Hacc Hv. fold (score v).
  destruct (ltb (score v) (snd acc)) eqn:Hcmp; [| reflexivity].
  rewrite (ltb_leb_trans _ _ _ Hcmp Hacc) in Hv. discriminate.
Qed.

Lemma fold_getWinner_step_filter l :
  forall acc,
    boundedMin acc ->
    fold_left getWinner_step l acc
    = fold_left getWinner_step
        (List.filter (fun x => ltb (score x) MaxFloat64) l) acc.
Proof.
  induction l as [| v l IH]; intros acc Hacc; simpl; [reflexivity |].
  destruct (ltb (score v) MaxFloat64) eqn:Hv; simpl.
  - apply IH. by apply getWinner_step_bounded.
  - rewrite getWinner_step_unbeatable by assumption. by apply IH.
Qed.

(** X2: results whose score is not strictly below [MaxFloat64] (the value
    [MaxFloat64] itself, +Inf, NaN) are ignored: the winner is the winner
    among the other results. *)
Theorem getWinner_ignores_unbeatable (results : list runResult) :
  getWinner results
  = getWinner (List.filter (fun x => ltb (score x) MaxFloat64) results).
Proof.
  unfold getWinner. f_equal. apply fold_getWinner_step_filter. reflexivity.
Qed.

Lemma zero_or_member_fold l :
  (fold_left getWinner_step l (runResult_zero, MaxFloat64)
   = (runResult_zero, MaxFloat64) /\
   Forall (fun x => ltb (score x) MaxFloat64 = false) l) \/
  (fst (fold_left getWinner_step l (runResult_zero, MaxFloat64)) ∈ l /\
   snd (fold_left getWinner_step l (runResult_zero, MaxFloat64))
   = score (fst (fold_left getWinner_step l (runResult_zero, MaxFloat64))) /\
   ltb (score (fst (fold_left getWinner_step l (runResult_zero, MaxFloat64))))
       MaxFloat64 = true).
Proof.
  induction l as [| v l IH] using rev_ind.
  - left. simpl. auto.
  - rewrite fold_left_app. simpl.
    set (acc := fold_left getWinner_step l (runResult_zero, MaxFloat64)) in *.
    destruct IH as [[Hacc Hnone] | (Hin & Hmin & Hlt)];
      unfold getWinner_step; fold (score v).
    + rewrite Hacc. simpl snd.
      destruct (ltb (score v) MaxFloat64) eqn:Hv.
      * right. simpl. repeat split; auto.
        apply elem_of_app. right. by apply list_elem_of_singleton.
      * left. split; auto. apply Forall_app. auto.
    + rewrite Hmin.
      destruct (ltb (score v) (score (fst acc))) eqn:Hcmp; simpl.
      * right. repeat split.
        -- apply elem_of_app. right. by apply list_elem_of_singleton.
        -- eapply ltb_trans; eauto.
      * right. repeat split; auto. apply elem_of_app. auto.
Qed.

(** X1: [getWinner] returns either one of the results, one whose score is
    strictly below [MaxFloat64], or, when no result has such a score (the
    empty slice among them), the zero-valued [runResult]. *)
Theorem getWinner_zero_or_member (results : list runResult) :
  (getWinner results = runResult_zero /\
   Forall (fun x => ltb (score x) MaxFloat64 = false) results) \/
  (getWinner results ∈ results /\
   ltb (score (getWinner results)) MaxFloat64 = true).
Proof.
  unfold getWinner.
  destruct (zero_or_member_fold results) as [[Hacc Hnone] | (Hin & _ & Hlt)].
  - left. rewrite Hacc. auto.
  - right. auto.
Qed.

End WinnerEdges.

(** ** The order and the errors of [getEligibleNodePools] *)

Section EligibilityOrder.

Context {W : Type} {engine : Engine W}.

Lemma eligibleLoop_flat_map (w : W) workers :
  forall acc pools,
    eligibleLoop w workers acc = Ok pools ->
    pools = acc ++ flat_map (eligibleOf w) workers.
Proof.
  induction workers as [| worker workers IH]; simpl; intros acc pools H.
  - inversion H. by rewrite app_nil_r.
  - unfold eligibleOf at 1.
    destruct (ListNodesInNodePool w (Worker.Name worker)) as [nodes | e];
      [| discriminate].
    destruct (_ >=? _).
    + apply IH. exact H.
    + rewrite (IH _ _ H). by rewrite <- app_assoc.
Qed.

Lemma eligibleOf_names (w : W) workers :
  map NodePool.Name (flat_map (eligibleOf w) workers)
    `sublist_of` map Worker.Name workers.
Proof.
  induction workers as [| worker workers IH]; simpl; [constructor |].
  unfold eligibleOf at 1.
  destruct (ListNodesInNodePool w (Worker.Name worker)) as [nodes | e].
  - destruct (_ >=? _); simpl.
    + by apply sublist_cons.
    + by apply sublist_skip.
  - by apply sublist_cons.
Qed.

(** X3: the eligible pools come in the order of the shoot's workers: the
    list is the workers' list with the full workers dropped and each other
    worker replaced by its pool, so the pool names are a sublist of the
    worker names and there are never more pools than workers. *)
Theorem getEligibleNodePools_in_worker_order (w : W) shoot pools :
  getEligibleNodePools w shoot = Ok pools ->
  pools = flat_map (eligibleOf w) (Shoot.Workers shoot) /\
  map NodePool.Name pools `sublist_of` map Worker.Name (Shoot.Workers shoot) /\
  (length pools <= length (Shoot.Workers shoot))%nat.
Proof.
  unfold getEligibleNodePools. intros H.
  apply eligibleLoop_flat_map in H. simpl in H. subst pools.
  split; [reflexivity |].
  pose proof (eligibleOf_names w (Shoot.Workers shoot)) as Hsub.
  split; [exact Hsub |].
  apply sublist_length in Hsub. by rewrite !length_map in Hsub.
Qed.

Lemma eligibleLoop_first_error (w : W) workers e :
  forall acc,
    eligibleLoop w workers acc = Err e <->
    exists before worker after,
      workers = before ++ worker :: after /\
      Forall (listable w) before /\
      ListNodesInNodePool w (Worker.Name worker) = Err e.
Proof.
  induction workers as [| worker workers IH]; simpl; intros acc.
  - split; [discriminate |].
    intros (before & wk & after & Heq & _). by destruct before.
  - destruct (ListNodesInNodePool w (Worker.Name worker)) as [nodes | e0] eqn:Hlist.
    + assert (Hstep : forall acc',
                eligibleLoop w workers acc' = Err e <->
                exists before wk after,
                  worker :: workers = before ++ wk :: after /\
                  Forall (listable w) before /\
                  ListNodesInNodePool w (Worker.Name wk) = Err e).
      { intros acc'. rewrite IH. split.
        - intros (before & wk & after & -> & Hb & Hwk).
          exists (worker :: before), wk, after. repeat split; auto.
          constructor; [by exists nodes | exact Hb].
        - intros (before & wk & after & Heq & Hb & Hwk).
          destruct before as [| b before]; simpl in Heq; inversion Heq; subst.
          + congruence.
          + exists before, wk, after. repeat split; auto. by inversion Hb. }
      destruct (_ >=? _); apply Hstep.
    + split.
      * intros H. inversion H; subst.
        exists [], worker, workers. repeat split; auto.
      * intros (before & wk & after & Heq & Hb & Hwk).
        destruct before as [| b before]; simpl in Heq; inversion Heq; subst.
        -- congruence.
        -- inversion Hb as [| ? ? [ns Hns] _]; subst. congruence.
Qed.

(** X4: [getEligibleNodePools] returns an error exactly when the nodes of
    some worker cannot be listed, and the error is that of the first such
    worker in the order of the shoot's workers. *)
Theorem getEligibleNodePools_first_error (w : W) shoot e :
  getEligibleNodePools w shoot = Err e <->
  exists before worker after,
    Shoot.Workers shoot = before ++ worker :: after /\
    Forall (listable w) before /\
    ListNodesInNodePool w (Worker.Name worker) = Err e.
Proof. apply eligibleLoop_first_error. Qed.

End EligibilityOrder.

(** ** All trials of a round *)

Section AllTrials.

Context {W : Type} {engine : Engine W}.

(** A step takes a goroutine further, up to its return, and leaves its pool
    alone. *)
Lemma stepTrial_progress runNum g (w : W) ch g' w' ch' :
  stepTrial runNum g w ch = Some (g', w', ch') ->
  nodePool g' = nodePool g /\
  (rank (at_pc g') = 3 \/ rank (at_pc g) < rank (at_pc g'))%nat.
Proof.
  unfold stepTrial. intros H.
  destruct (at_pc g) as [| NodeList | |] eqn:Hpc.
  - destruct (ListNodes w) as [nodes | e].
    + destruct (mapM _ nodes); [| discriminate].
      inversion H; subst. simpl. split; [reflexivity | lia].
    + inversion H; subst. simpl. split; [reflexivity | lia].
  - destruct (AddNodes w NodeList) as [w1 e1].
    inversion H; subst. simpl. split; [reflexivity | lia].
  - destruct (ListPods w) as [pods | e]; inversion H; subst; simpl;
      (split; [reflexivity | lia]).
  - inversion H; subst. rewrite Hpc. simpl. split; [reflexivity | lia].
Qed.

Lemma rank_le_3 p : (rank p <= 3)%nat.
Proof. destruct p; simpl; lia. Qed.

Lemma runSchedule_progress runNum schedule :
  forall gs (w : W) ch gs' w' ch',
    runSchedule runNum schedule gs w ch = Some (gs', w', ch') ->
    length gs' = length gs /\
    forall j g, gs !! j = Some g ->
      exists g', gs' !! j = Some g' /\ nodePool g' = nodePool g /\
        (rank (at_pc g') = 3 \/
         rank (at_pc g) + turns j schedule <= rank (at_pc g'))%nat.
Proof.
  induction schedule as [| i schedule IH]; intros gs w ch gs' w' ch' H.
  - simpl in H. inversion H; subst. split; [reflexivity |].
    intros j g Hj. exists g. repeat split; auto. right. unfold turns. simpl. lia.
  - simpl in H. destruct (gs !! i) as [gi |] eqn:Hi.
    + destruct (stepTrial runNum gi w ch) as [[[g1 w1] ch1] |] eqn:Hstep;
        [| discriminate].
      apply stepTrial_progress in Hstep as [Hpool Hrank].
      destruct (IH _ _ _ _ _ _ H) as [Hlen Hall].
      rewrite length_insert in Hlen. split; [exact Hlen |].
      intros j g Hj. unfold turns. simpl.
      destruct (Nat.eqb_spec j i) as [-> | Hne].
      * assert (g = gi) by congruence. subst g.
        destruct (Hall i g1) as (g' & Hg' & Hp & Hr).
        { apply list_lookup_insert_eq. by eapply lookup_lt_Some. }
        exists g'. split; [exact Hg' |]. split; [congruence |].
        pose proof (rank_le_3 (at_pc g')). unfold turns in Hr. simpl. lia.
      * destruct (Hall j g) as (g' & Hg' & Hp & Hr).
        { rewrite list_lookup_insert_ne; auto. }
        exists g'. repeat split; auto.
    + destruct (IH _ _ _ _ _ _ H) as [Hlen Hall]. split; [exact Hlen |].
      intros j g Hj. unfold turns. simpl.
      destruct (Nat.eqb_spec j i) as [-> | Hne]; [congruence |].
      apply Hall. exact Hj.
Qed.

Lemma turns_app i l1 l2 : turns i (l1 ++ l2) = (turns i l1 + turns i l2)%nat.
Proof. unfold turns. by rewrite List.filter_app, length_app. Qed.

Lemma turns_drain i : forall start n,
  (start <= i < start + n)%nat ->
  (3 <= turns i (flat_map (fun i => [i; i; i]) (seq start n)))%nat.
Proof.
  intros start n. revert start.
  induction n as [| n IH]; intros start Hi; [lia |].
  simpl. unfold turns in *. simpl.
  destruct (Nat.eqb_spec i start) as [-> | Hne]; simpl; [lia |].
  apply IH. lia.
Qed.

(** When [wg.Wait()] returns, every goroutine has returned. *)
Lemma runSchedule_all_returned runNum schedule gs (w : W) ch gs' w' ch' :
  runSchedule runNum (schedule ++ drainSchedule (length gs)) gs w ch
    = Some (gs', w', ch') ->
  length gs' = length gs /\ returnedCount gs' = length gs.
Proof.
  intros H. apply runSchedule_progress in H as [Hlen Hall].
  split; [exact Hlen |]. rewrite <- Hlen.
  assert (Hret : Forall (fun g => hasReturned g = true) gs').
  { apply Forall_lookup_2. intros j g' Hj.
    assert (Hlt : (j < length gs)%nat).
    { rewrite <- Hlen. by eapply lookup_lt_Some. }
    destruct (lookup_lt_is_Some_2 gs j Hlt) as [g Hg].
    destruct (Hall j g Hg) as (g'' & Hg'' & _ & Hr).
    assert (g'' = g') by congruence. subst g''.
    rewrite turns_app in Hr.
    pose proof (turns_drain j 0 (length gs) ltac:(lia)) as Hd.
    unfold drainSchedule in Hr. unfold hasReturned.
    pose proof (rank_le_3 (at_pc g)).
    destruct (at_pc g'); simpl in Hr; first [reflexivity | lia]. }
  unfold returnedCount. clear -Hret.
  induction Hret as [| g l Hg _ IH]; simpl; [reflexivity |].
  rewrite Hg. simpl. by rewrite IH.
Qed.

End AllTrials.

(** ** What the trials of a round send *)

Section TrialReports.

Context {W : Type} {engine : Engine W}.

Lemma runSchedule_ListNodes_fails runNum (w : W) e schedule :
  ListNodes w = Err e ->
  forall gs,
    Forall (fun g => at_pc g = AtListNodes \/ at_pc g = Returned) gs ->
    exists gs',
      runSchedule runNum schedule gs w (replicate (returnedCount gs) (failed e))
      = Some (gs', w, replicate (returnedCount gs') (failed e)).
Proof.
  intros Hfail.
  induction schedule as [| i schedule IH]; simpl; intros gs Hgs; [eauto |].
  destruct (gs !! i) as [g |] eqn:Hi; [| by apply IH].
  assert (Hg : at_pc g = AtListNodes \/ at_pc g = Returned).
  { rewrite Forall_lookup in Hgs. by eapply Hgs. }
  unfold stepTrial. destruct Hg as [Hg | Hg]; rewrite Hg.
  - rewrite Hfail.
    pose proof (returnedCount_insert gs i g
                  {| nodePool := nodePool g; at_pc := Returned |} Hi) as Hcount.
    unfold hasReturned in Hcount at 1 2. rewrite Hg in Hcount. simpl in Hcount.
    rewrite <- replicate_S_end.
    replace (S (returnedCount gs))
      with (returnedCount (<[i:={| nodePool := nodePool g; at_pc := Returned |}]> gs))
      by lia.
    apply IH. apply Forall_insert; auto.
  - rewrite list_insert_id by exact Hi. by apply IH.
Qed.

(** X5: when the nodes cannot be listed, every trial of the round sends
    exactly one result, the failure with that error, and none calls
    [AddNodes]: the world is left as it was, however the goroutines are
    scheduled. *)
Theorem trials_report_ListNodes_failure schedule (w : W) nodePools runNum e :
  ListNodes w = Err e ->
  triggerNodePoolSimulations schedule w nodePools runNum
  = Some (w, replicate (length nodePools) (failed e)).
Proof.
  intros Hfail. unfold triggerNodePoolSimulations.
  set (gs := map (fun nodePool => {| nodePool := nodePool; at_pc := AtListNodes |})
                 nodePools).
  assert (Hstart : Forall (fun g => at_pc g = AtListNodes \/ at_pc g = Returned) gs).
  { apply Forall_forall. intros g Hg. apply list_elem_of_In in Hg.
    apply in_map_iff in Hg as (p & <- & _). auto. }
  assert (Hzero : returnedCount gs = 0%nat).
  { unfold returnedCount, gs. clear. induction nodePools; simpl; auto. }
  destruct (runSchedule_ListNodes_fails runNum w e
              (schedule ++ drainSchedule (length nodePools)) Hfail gs Hstart)
    as [gs' Hrun].
  rewrite Hzero in Hrun. simpl in Hrun. rewrite Hrun.
  assert (Hlen : length gs = length nodePools) by apply length_map.
  rewrite <- Hlen in Hrun.
  apply runSchedule_all_returned in Hrun as [_ Hall].
  by rewrite Hall, Hlen.
Qed.



(** X8: what the channel holds when it is closed fits the buffer it was
    made with, so no send blocks; and every value it holds is a failure. *)
Theorem resultCh_at_close schedule (w : W) nodePools runNum w' ch :
  triggerNodePoolSimulations schedule w nodePools runNum = Some (w', ch) ->
  GoInt.len ch <= resultChCap nodePools /\ Forall reportsFailure ch.
Proof.
  intros H. split.
  - eapply resultCh_within_capacity. exact H.
  - eapply triggerNodePoolSimulations_sends_failures. exact H.
Qed.

End TrialReports.

(** ** One trial, to its end *)

Section TrialToEnd.

Context {W : Type} {engine : Engine W}.

Variable runNum : Z.
Variable pool : NodePool.t.

Local Abbreviation G := (trialAt pool).

Lemma trial_from_ListPods (w : W) :
  forall schedule rest ch,
    runSchedule runNum (schedule ++ 0%nat :: rest) [G AtListPods] w ch
    = Some ([G Returned], w, ch ++ podsReport (ListPods w)).
Proof.
  assert (Hstep : forall ch,
            stepTrial runNum (G AtListPods) w ch
            = Some (G Returned, w, ch ++ podsReport (ListPods w))).
  { intros ch. unfold stepTrial. simpl.
    destruct (ListPods w); simpl; [by rewrite app_nil_r | reflexivity]. }
  induction schedule as [| i schedule IH]; intros rest ch.
  - simpl. rewrite Hstep. simpl. apply single_returned.
  - destruct i as [| i]; simpl.
    + rewrite Hstep. simpl. apply single_returned.
    + apply IH.
Qed.

Lemma trial_from_AddNodes (w w' : W) NodeList eo :
  AddNodes w NodeList = (w', eo) ->
  forall schedule rest ch,
    runSchedule runNum (schedule ++ 0%nat :: 0%nat :: rest)
      [G (AtAddNodes NodeList)] w ch
    = Some ([G Returned], w', ch ++ podsReport (ListPods w')).
Proof.
  intros Hadd.
  induction schedule as [| i schedule IH]; intros rest ch.
  - simpl. unfold stepTrial at 1. simpl. rewrite Hadd. simpl.
    apply (trial_from_ListPods w' []).
  - destruct i as [| i]; simpl.
    + unfold stepTrial at 1. simpl. rewrite Hadd. simpl.
      change (schedule ++ 0%nat :: 0%nat :: rest)
        with (schedule ++ [0%nat] ++ 0%nat :: rest).
      rewrite app_assoc. apply (trial_from_ListPods w').
    + apply IH.
Qed.

Lemma trial_from_ListNodes (w w' : W) nodes NodeList eo :
  ListNodes w = Ok nodes ->
  mapM (labelNodeCopy (NodePool.Name pool +:+ "-" +:+ GoInt.Itoa runNum)) nodes
    = Some NodeList ->
  AddNodes w NodeList = (w', eo) ->
  forall schedule rest ch,
    runSchedule runNum (schedule ++ 0%nat :: 0%nat :: 0%nat :: rest)
      [G AtListNodes] w ch
    = Some ([G Returned], w', ch ++ podsReport (ListPods w')).
Proof.
  intros Hnodes Hlabel Hadd.
  induction schedule as [| i schedule IH]; intros rest ch.
  - simpl. unfold stepTrial at 1. simpl. rewrite Hnodes, Hlabel. simpl.
    apply (trial_from_AddNodes w w' NodeList eo Hadd []).
  - destruct i as [| i]; simpl.
    + unfold stepTrial at 1. simpl. rewrite Hnodes, Hlabel. simpl.
      change (schedule ++ 0%nat :: 0%nat :: 0%nat :: rest)
        with (schedule ++ [0%nat] ++ 0%nat :: 0%nat :: rest).
      rewrite app_assoc.
      apply (trial_from_AddNodes w w' NodeList eo Hadd).
    + apply IH.
Qed.

End TrialToEnd.

Section TrialEffects.

Context {W : Type} {engine : Engine W}.

(** X6: a trial that has added its node copies and then cannot list the
    pods sends exactly one result, the failure with that error, and leaves
    the world as [AddNodes] left it: the copies are not taken back. *)
Theorem trial_reports_ListPods_failure schedule (w w' : W) nodePool runNum
    nodes NodeList eo e :
  ListNodes w = Ok nodes ->
  mapM (labelNodeCopy (labelValue (NodePool.Name nodePool) runNum)) nodes
    = Some NodeList ->
  AddNodes w NodeList = (w', eo) ->
  ListPods w' = Err e ->
  triggerNodePoolSimulations schedule w [nodePool] runNum
  = Some (w', [failed e]).
Proof.
  intros Hnodes Hlabel Hadd Hpods. unfold triggerNodePoolSimulations.
  change (drainSchedule (length [nodePool])) with [0%nat; 0%nat; 0%nat].
  change (map _ [nodePool]) with [trialAt nodePool AtListNodes].
  rewrite (trial_from_ListNodes runNum nodePool w w' nodes NodeList eo
             Hnodes Hlabel Hadd).
  rewrite Hpods. reflexivity.
Qed.

Lemma labelNodeCopy_copyOf value node copy :
  labelNodeCopy value node = Some copy -> copyOf value node copy.
Proof.
  unfold labelNodeCopy, copyOf. intros H.
  destruct (Node.Labels node) as [labels |] eqn:Hl; [| discriminate].
  inversion H; subst. simpl. split; [reflexivity |].
  exists labels, (<[labelKey := value]> labels). repeat split.
  - apply lookup_insert_eq.
  - intros key Hkey. by apply lookup_insert_ne.
Qed.

(** X9: the first step of a trial that can list the nodes produces one copy
    per listed node, in the same order, for [AddNodes]: each copy has the
    node's name followed by "SimRun-" and the trial's label value, carries
    that value under the simulation-run label key and has the node's other
    labels unchanged.  The step itself sends nothing and leaves the world
    alone. *)
Theorem trial_copies_nodes runNum nodePool (w : W) ch nodes g' w' ch' :
  ListNodes w = Ok nodes ->
  stepTrial runNum (trialAt nodePool AtListNodes) w ch = Some (g', w', ch') ->
  exists NodeList,
    g' = trialAt nodePool (AtAddNodes NodeList) /\ w' = w /\ ch' = ch /\
    Forall2 (copyOf (labelValue (NodePool.Name nodePool) runNum)) nodes NodeList.
Proof.
  intros Hnodes. unfold stepTrial. simpl. rewrite Hnodes.
  fold (labelValue (NodePool.Name nodePool) runNum).
  destruct (mapM _ nodes) as [NodeList |] eqn:Hmap; [| discriminate].
  intros H. inversion H; subst. exists NodeList. repeat split.
  apply mapM_Some_1 in Hmap.
  eapply Forall2_impl; [exact Hmap |].
  intros node copy Hc. by apply labelNodeCopy_copyOf.
Qed.

Lemma length_append (s1 s2 : string) :
  String.length (s1 +:+ s2) = (String.length s1 + String.length s2)%nat.
Proof. induction s1 as [| a s1 IH]; simpl; [reflexivity | by rewrite IH]. Qed.

Lemma append_inj_r (s1 s2 t : string) : s1 +:+ t = s2 +:+ t -> s1 = s2.
Proof.
  revert s2. induction s1 as [| a s1 IH]; intros s2 H.
  - destruct s2 as [| b s2]; [reflexivity |].
    apply (f_equal String.length) in H.
    rewrite !length_append in H. simpl in H. lia.
  - destruct s2 as [| b s2].
    + apply (f_equal String.length) in H.
      rewrite !length_append in H. simpl in H. lia.
    + injection H as -> H. f_equal. by apply IH.
Qed.

(** X10: label values keep trials apart: in one run, the trials of pools
    with different names have different label values, and the trials of one
    pool in different runs have different label values. *)
Theorem labelValue_distinct (pool1 pool2 : string) (run1 run2 : Z) :
  (pool1 <> pool2 -> labelValue pool1 run1 <> labelValue pool2 run1) /\
  (run1 <> run2 -> labelValue pool1 run1 <> labelValue pool1 run2).
Proof.
  unfold labelValue, GoInt.Itoa. split; intros Hne Heq; apply Hne.
  - by apply append_inj_r in Heq.
  - apply String.app_inj in Heq. apply String.app_inj in Heq.
    by apply (inj pretty) in Heq.
Qed.

End TrialEffects.

(** ** What [Run] logs *)

Section RunLog.

Context {W : Type} {engine : Engine W}.

(** A round whose eligible pools were computed returns the zero-valued
    winner and no pods, unless a trial panics. *)
Lemma runSimulation_eligible schedule (w : W) shoot pods runNum pools :
  getEligibleNodePools w shoot = Ok pools ->
  runSimulation schedule w shoot pods runNum = None \/
  exists w', runSimulation schedule w shoot pods runNum
             = Some (w', (Some NodeRunResult.zero, [], None)).
Proof.
  intros Helig. unfold runSimulation. rewrite Helig.
  destruct (triggerNodePoolSimulations schedule w pools runNum)
    as [[w' ch] |] eqn:Htrig; [| by left].
  right. exists w'.
  rewrite collectResults_failures; [reflexivity |].
  eapply triggerNodePoolSimulations_sends_failures; eauto.
Qed.

Lemma RunLoop_log_shapes schedules fuel shoot rec pods (w : W) k r :
  RunLoop (fun w shoot pods runNum =>
             runSimulation (schedules runNum) w shoot pods runNum)
          fuel shoot rec pods 0 w [] k = Some (Returns r) ->
  (pods = [] /\ log r = [LogRunStarted 1; LogAllPodsScheduled]) \/
  (pods <> [] /\
   exists e, getEligibleNodePools w shoot = Err e /\ world r = w /\
             log r = [LogRunStarted 1; LogSimulationError (Shoot.Name shoot) e]) \/
  (pods <> [] /\
   (exists pools, getEligibleNodePools w shoot = Ok pools) /\
   log r = [LogRunStarted 1; LogWinningScore 1 NodeRunResult.zero;
            LogRunStarted 2; LogAllPodsScheduled]).
Proof.
  destruct fuel as [| fuel]; [discriminate |].
  cbn [RunLoop]. change (GoInt.int (0 + 1)) with 1.
  destruct (GoInt.len pods =? 0) eqn:Hlen.
  - apply len_nil_iff in Hlen. intros H. inversion H; subst. simpl. auto.
  - assert (Hne : pods <> []) by (intros ->; discriminate).
    destruct (getEligibleNodePools w shoot) as [pools | e] eqn:Helig.
    + destruct (runSimulation_eligible (schedules 1) w shoot pods 1 pools Helig)
        as [Hp | [w' Hw]].
      * rewrite Hp. discriminate.
      * rewrite Hw. destruct fuel as [| fuel]; [discriminate |].
        cbn [RunLoop]. change (GoInt.int (1 + 1)) with 2. simpl.
        intros H. inversion H; subst. simpl. right. right. eauto.
    + unfold runSimulation. rewrite Helig.
      intros H. inversion H; subst. simpl. right. left. eauto.
Qed.

(** X12: the log of a [Run] that returns has one of five shapes: nothing
    (the pods could not be listed), the internal error of the shoot fetch,
    run 1 finding all pods scheduled, run 1 failing to get the eligible
    pools, or run 1 announcing the zero-valued winner followed by run 2
    finding all pods scheduled.  So [Run] never starts a third run and never
    logs that no winner could be identified. *)
Theorem Run_log_shapes schedules shootName fuel (w : W) r :
  Run schedules shootName fuel w = Some (Returns r) ->
  log r = [] \/
  (exists e, log r = [LogInternalError e]) \/
  log r = [LogRunStarted 1; LogAllPodsScheduled] \/
  (exists name e, log r = [LogRunStarted 1; LogSimulationError name e]) \/
  log r = [LogRunStarted 1; LogWinningScore 1 NodeRunResult.zero;
           LogRunStarted 2; LogAllPodsScheduled].
Proof.
  unfold Run. intros H.
  destruct (ListPods w) as [pods | e].
  - destruct (getShoot w shootName) as [shoot | e].
    + apply RunLoop_log_shapes in H
        as [[_ Hl] | [(_ & e & _ & _ & Hl) | (_ & _ & Hl)]]; eauto 10.
    + inversion H; subst. simpl. eauto.
  - inversion H; subst. simpl. auto.
Qed.

(** X11: with pods pending and the eligible pools computed, a [Run] that
    returns has run one round, announced the zero-valued result as its
    winner and then, in run 2, logged that all pods are scheduled; it
    returns the empty recommendation and a nil error.  What was pending is
    reported as scheduled although no trial reported a placement. *)
Theorem Run_reports_all_scheduled schedules shootName fuel (w : W)
    pods shoot pools r :
  ListPods w = Ok pods ->
  pods <> [] ->
  getShoot w shootName = Ok shoot ->
  getEligibleNodePools w shoot = Ok pools ->
  Run schedules shootName fuel w = Some (Returns r) ->
  log r = [LogRunStarted 1; LogWinningScore 1 NodeRunResult.zero;
           LogRunStarted 2; LogAllPodsScheduled] /\
  rounds r = 1%nat /\ recommendation r = ∅ /\ error_ r = None.
Proof.
  intros Hpods Hne Hshoot Helig. unfold Run. rewrite Hpods, Hshoot. intros H.
  pose proof (RunLoop_returns_unchanged _ _ _ _ _ _ _ _ _ _ H) as [Hrec Herr].
  split; [| split; [| by split]].
  - apply RunLoop_log_shapes in H
      as [[Hnil _] | [(_ & e & He & _) | (_ & _ & Hl)]]; congruence.
  - destruct fuel as [| [| fuel]]; [discriminate | |].
    + cbn [RunLoop] in H. change (GoInt.int (0 + 1)) with 1 in H.
      destruct (GoInt.len pods =? 0) eqn:Hlen;
        [apply len_nil_iff in Hlen; congruence |].
      destruct (runSimulation_eligible (schedules 1) w shoot pods 1 pools Helig)
        as [Hp | [w' Hw]]; [rewrite Hp in H | rewrite Hw in H]; discriminate.
    + destruct (RunLoop_two_iterations schedules fuel shoot ∅ pods w [] 0%nat)
        as (o & Hrun & Ho).
      rewrite H in Hrun. inversion Hrun; subst o.
      destruct Ho as (_ & _ & _ & Hrounds). by apply Hrounds.
Qed.

(** X14: when the eligible pools cannot be computed, [Run] starts no
    trial: it logs the error under run 1, leaves the world as it was and
    returns the empty recommendation with a nil error. *)
Theorem Run_eligibility_error schedules shootName fuel (w : W) pods shoot e :
  ListPods w = Ok pods ->
  pods <> [] ->
  getShoot w shootName = Ok shoot ->
  getEligibleNodePools w shoot = Err e ->
  Run schedules shootName (S fuel) w
  = Some (Returns {| recommendation := ∅; error_ := None; world := w;
                     log := [LogRunStarted 1;
                             LogSimulationError (Shoot.Name shoot) e];
                     rounds := 1 |}).
Proof.
  intros Hpods Hne Hshoot Helig. unfold Run. rewrite Hpods, Hshoot.
  cbn [RunLoop]. change (GoInt.int (0 + 1)) with 1.
  destruct (GoInt.len pods =? 0) eqn:Hlen;
    [apply len_nil_iff in Hlen; congruence |].
  unfold runSimulation. rewrite Helig. reflexivity.
Qed.

End RunLog.

(** ** The handler that syncs the shoot's nodes *)

Section SyncHandler.

Context {W : Type} {engine : Engine W} {shootAccess : ShootAccess W}.

(** X15: on a fresh response, [handleSyncShootNodes] answers with status
    500 and the error text followed by a newline when the shoot's nodes
    cannot be fetched (the virtual cluster is then not touched) or cannot be
    added, and logs nothing; otherwise it writes nothing to the response,
    neither status nor body, and logs the number of nodes added. *)
Theorem handleSyncShootNodes_outcomes (w : W) :
  let '(w', rw, logs) := handleSyncShootNodes w http.fresh in
  (exists e,
     rw = {| http.status := Some http.StatusInternalServerError;
             http.body := Error e +:+ newline |} /\
     logs = [] /\
     ((GetNodes w = Err e /\ w' = w) \/
      (exists nodes, GetNodes w = Ok nodes /\ AddNodes w nodes = (w', Some e)))) \/
  (rw = http.fresh /\
   exists nodes, GetNodes w = Ok nodes /\ AddNodes w nodes = (w', None) /\
                 logs = [SlogInfo "added nodes to virtual cluster." "num-nodes"
                                  (GoInt.len nodes)]).
Proof.
  unfold handleSyncShootNodes.
  destruct (GetNodes w) as [nodes | e] eqn:Hnodes.
  - destruct (AddNodes w nodes) as [w' [e |]] eqn:Hadd.
    + left. exists e. repeat split. right. eauto.
    + right. split; [reflexivity |]. eauto.
  - left. exists e. repeat split. left. auto.
Qed.

End SyncHandler.

(** ** The scenario runner *)

Section ScenarioRunner.

Import Scenario.

Context {W A R D : Type} {engine : Engine W} {collab : Collaborators W A R D}.

Lemma deployLoop_prefix entries : forall st : state W,
  slog (fst (deployLoop entries st)) = slog st /\
  match snd (deployLoop entries st) with
  | None => web (fst (deployLoop entries st)) = web st ++ map deploying entries
  | Some e =>
      exists k entry w1,
        entries !! k = Some entry /\
        web (fst (deployLoop entries st))
        = web st ++ map deploying (take (S k) entries) /\
        CreatePodsFromYaml w1 (fst entry) (snd entry)
        = (world (fst (deployLoop entries st)), Some e)
  end.
Proof.
  induction entries as [| [podYamlPath numPods] entries IH]; intros st.
  - simpl. split; [reflexivity |]. by rewrite app_nil_r.
  - cbn [deployLoop].
    change (write st [Log _]) with (write st [deploying (podYamlPath, numPods)]).
    destruct (CreatePodsFromYaml _ podYamlPath numPods) as [w1 [e |]] eqn:Hcreate.
    + simpl. split; [reflexivity |].
      exists 0%nat, (podYamlPath, numPods), (world st). repeat split.
      exact Hcreate.
    + destruct (IH (setWorld (write st [deploying (podYamlPath, numPods)]) w1))
        as [Hslog Hweb].
      split; [exact Hslog |].
      destruct (snd (deployLoop entries _)) as [e |].
      * destruct Hweb as (k & entry & w2 & Hk & Hweb & Hc).
        exists (S k), entry, w2. repeat split; [exact Hk | | exact Hc].
        rewrite Hweb. simpl. by rewrite <- app_assoc.
      * rewrite Hweb. simpl. by rewrite <- app_assoc.
Qed.

(** [deployPods] writes nothing with [slog]. *)
Lemma deployPods_slog entries (st st' : state W) err :
  deployPods entries st = (st', err) -> slog st' = slog st.
Proof.
  unfold deployPods. destruct (deployLoop_prefix entries st) as [Hslog _].
  destruct (deployLoop entries st) as [st1 [e |]]; simpl in *.
  - intros H. by inversion H; subst.
  - destruct (WaitTillNoUnscheduledPodsOrTimeout (world st1)) as [w1 [e |]];
      intros H; by inversion H; subst.
Qed.


Lemma last_snoc2 {X} (l : list X) a b : last (l ++ [a; b]) = Some b.
Proof. by rewrite last_app. Qed.

Ltac scenario_cases :=
  unfold Run, resetVirtualCluster, createNodesInVirtualCluster,
    printPodDeploymentRecommendations;
  repeat case_match; simplify_eq;
  cbn [web world slog write slogError setWorld].

(** X17: whatever happens, [Run] writes something to the response, and the
    last thing it writes is either an internal error or the Scenario-End
    line. *)
Theorem Run_last_entry (s : ScenarioRunner) entries (w : W) :
  exists entry,
    last (web (Run s entries w)) = Some entry /\ endsScenario s entry.
Proof.
  scenario_cases; rewrite ?last_snoc2, ?last_snoc;
    (eexists; split; [reflexivity | unfold endsScenario, scenarioEnd; eauto]).
Qed.


(** X19: every record the runner writes with [slog] has the runner's "ran
    into error" message and an error that is also on the response, in a
    "completed with error" line; and one [Run] writes at most two such
    records. *)
Theorem Run_slog_errors_on_response (s : ScenarioRunner) entries (w : W) :
  Forall (reportedOn s (web (Run s entries w))) (slog (Run s entries w)) /\
  (length (slog (Run s entries w)) <= 2)%nat.
Proof.
  unfold reportedOn.
  scenario_cases;
    repeat match goal with
    | H : deployPods _ _ = _ |- _ =>
        apply deployPods_slog in H; cbn [web world slog write slogError setWorld] in H;
        rewrite H
    end;
    (split; [| simpl; lia]);
    repeat first [apply Forall_nil_2 | apply Forall_cons_2 | apply Forall_app_2];
    eexists; (split; [reflexivity |]);
    rewrite <- ?app_assoc; simpl;
    repeat first [ apply list_elem_of_here | apply list_elem_of_further
                 | (apply elem_of_app; right) ].
Qed.

(** X20: a failure before the scenario starts, of [ClearAll], of the sync
    with the shoot or of the shoot fetch, makes [Run] write the internal
    error and nothing else, neither the Scenario-Start nor the Scenario-End
    line, nor anything with [slog]; a failing [ClearAll] is not followed by
    a sync. *)
Theorem Run_preparation_failure (s : ScenarioRunner) entries (w w' : W) e :
  ClearAll w = (w', Some e) \/
  (exists w1, ClearAll w = (w1, None) /\
     (SyncVirtualNodesWithShoot w1 (shootName s) = (w', Some e) \/
      (SyncVirtualNodesWithShoot w1 (shootName s) = (w', None) /\
       GetShootObj w' (shootName s) = Err e))) ->
  Run s entries w = {| world := w'; web := [InternalError e]; slog := [] |}.
Proof.
  unfold Run, resetVirtualCluster. cbn [world].
  intros [H | (w1 & Hclear & [Hsync | [Hsync Hshoot]])].
  - by rewrite H.
  - by rewrite Hclear, Hsync.
  - rewrite Hclear, Hsync. cbn [world setWorld]. by rewrite Hshoot.
Qed.

End ScenarioRunner.



(** ** The further properties on the examples *)

Section FurtherExamples.

Import Sandbox Examples NamedCluster Rehearsal.

(** Witness of [getEligibleNodePools_in_worker_order]. *)
Lemma getEligibleNodePools_in_worker_order_witness :
  getEligibleNodePools atMax (shootOf atMax) = Ok [nodePoolOf (worker "B" 1) []] /\
  [nodePoolOf (worker "B" 1) []]
  = flat_map (eligibleOf atMax) (Shoot.Workers (shootOf atMax)) /\
  map NodePool.Name [nodePoolOf (worker "B" 1) []]
    `sublist_of` map Worker.Name (Shoot.Workers (shootOf atMax)) /\
  (length [nodePoolOf (worker "B" 1) []]
   <= length (Shoot.Workers (shootOf atMax)))%nat.
Proof.
  split; [reflexivity |].
  apply (getEligibleNodePools_in_worker_order atMax (shootOf atMax)).
  reflexivity.
Defined.

(** Witness of [trials_report_ListNodes_failure]: two trials, interleaved. *)
Lemma trials_report_ListNodes_failure_witness :
  triggerNodePoolSimulations [1; 0]%nat (failing (Some boom) None None None)
    [poolA; poolA] 1
  = Some (failing (Some boom) None None None, [failed boom; failed boom]).
Proof.
  apply (trials_report_ListNodes_failure [1; 0]%nat
           (failing (Some boom) None None None) [poolA; poolA] 1 boom).
  reflexivity.
Defined.

(** Witness of [trial_reports_ListPods_failure]. *)
Lemma trial_reports_ListPods_failure_witness :
  exists w',
    triggerNodePoolSimulations [] podsUnlistable [poolA] 1
    = Some (w', [failed boom]).
Proof.
  eexists.
  eapply (trial_reports_ListPods_failure [] podsUnlistable _ poolA 1);
    reflexivity.
Defined.


(** Witness of [resultCh_at_close]. *)
Lemma resultCh_at_close_witness :
  exists w' ch,
    triggerNodePoolSimulations [] (failing (Some boom) None None None) [poolA] 1
    = Some (w', ch) /\
    GoInt.len ch <= resultChCap [poolA] /\ Forall reportsFailure ch.
Proof.
  eexists _, _. split; [reflexivity |].
  eapply (resultCh_at_close [] (failing (Some boom) None None None) [poolA] 1).
  reflexivity.
Defined.

(** Witness of [trial_copies_nodes]. *)
Lemma trial_copies_nodes_witness :
  exists NodeList,
    stepTrial 1 (trialAt poolA AtListNodes) onePending []
    = Some (trialAt poolA (AtAddNodes NodeList), onePending, []) /\
    Forall2 (copyOf (labelValue "A" 1)) [node "n1" "A"] NodeList.
Proof.
  edestruct (trial_copies_nodes 1 poolA onePending [] [node "n1" "A"])
    as (NodeList & Hg & Hw & Hch & Hcopies); [reflexivity | reflexivity |].
  exists NodeList. split; [| exact Hcopies].
  injection Hg as <-. reflexivity.
Defined.

(** Witness of [Run_reports_all_scheduled]. *)
Lemma Run_reports_all_scheduled_witness :
  exists r,
    Run sequential "shoot" 2 onePending = Some (Returns r) /\
    log r = [LogRunStarted 1; LogWinningScore 1 NodeRunResult.zero;
             LogRunStarted 2; LogAllPodsScheduled] /\
    rounds r = 1%nat /\ recommendation r = ∅ /\ error_ r = None.
Proof.
  eexists. split; [reflexivity |].
  eapply (Run_reports_all_scheduled sequential "shoot" 2 onePending
            [pod "p1"] (shootOf onePending));
    [reflexivity | discriminate | reflexivity | reflexivity | reflexivity].
Defined.

(** Witness of [Run_log_shapes]. *)
Lemma Run_log_shapes_witness :
  exists r,
    Run sequential "shoot" 2 (failing None (Some boom) None None)
    = Some (Returns r) /\
    (log r = [] \/
     (exists e, log r = [LogInternalError e]) \/
     log r = [LogRunStarted 1; LogAllPodsScheduled] \/
     (exists name e, log r = [LogRunStarted 1; LogSimulationError name e]) \/
     log r = [LogRunStarted 1; LogWinningScore 1 NodeRunResult.zero;
              LogRunStarted 2; LogAllPodsScheduled]).
Proof.
  eexists. split; [reflexivity |].
  apply (Run_log_shapes sequential "shoot" 2 (failing None (Some boom) None None)).
  reflexivity.
Defined.

(** Witness of [Run_returns_when_nodes_labelled]: the cluster of named
    nodes. *)
Lemma Run_returns_when_nodes_labelled_witness :
  exists r, Run sequential "shoot" 2 ["n1"] = Some (Returns r).
Proof.
  apply (Run_returns_when_nodes_labelled sequential "shoot" 0 ["n1"]).
  intros w nodes H. injection H as <-.
  unfold labelled, nodesOf. apply Forall_forall. intros x Hx.
  apply list_elem_of_In, in_map_iff in Hx as (name & <- & _). discriminate.
Defined.

(** Witness of [Run_eligibility_error]. *)
Lemma Run_eligibility_error_witness :
  Run sequential "shoot" 1 (failing None (Some boom) None None)
  = Some (Returns {| recommendation := ∅; error_ := None;
                     world := failing None (Some boom) None None;
                     log := [LogRunStarted 1; LogSimulationError "shoot" boom];
                     rounds := 1 |}).
Proof.
  apply (Run_eligibility_error sequential "shoot" 0
           (failing None (Some boom) None None) [pod "p1"] (shootOf onePending)
           boom);
    [reflexivity | discriminate | reflexivity | reflexivity].
Defined.


(** Witness of [Run_preparation_failure]: [ClearAll] fails. *)
Lemma Run_preparation_failure_witness :
  Scenario.Run runner entries (failing None None None (Some boom))
  = {| Scenario.world := failing None None None (Some boom);
       Scenario.web := [Scenario.InternalError boom];
       Scenario.slog := [] |}.
Proof.
  apply (Run_preparation_failure runner entries
           (failing None None None (Some boom))
           (failing None None None (Some boom)) boom).
  left. reflexivity.
Defined.

End FurtherExamples.
